(** * CPP-Guide: copy/move tracing examples, verified over a shallow embedding

    The development embeds three programs of the repository:

    - [Tracer] and the exercises of [Program_01_CopyMove]
      (code_examples/oop/rule_of_five/src/01_rule_of_five.h);
    - the earlier, resource-less [Tracer] (same exercises, other wording of
      the trace lines);
    - [NaiveString] / [BetterString] and the [main] dispatchers
      (code_examples/memory/shallow_vs_deep_copy, code_examples/strings/std_format).

    C++ objects live in an object store indexed by their address, heap cells
    in a separate heap; [std::cout] is the list of texts written so far, one
    entry per output statement.  Where C++ leaves the behaviour undefined
    (null dereference, use after free, double free, an access past the end
    of an array) the execution stops with a [fault]: a fault says that the
    run reaches such a point, not what a particular build does there. *)

From Stdlib Require Import Ascii String.
From stdpp Require Import gmap strings list fin_maps pretty.

Open Scope string_scope.
Open Scope list_scope.

(** ** Faults and the state-and-error monad *)

Abbreviation addr := positive.
Abbreviation objid := positive.

Inductive fault : Type :=
  | NullDeref
  | UseAfterFree (a : addr)
  | DoubleFree (a : addr)
  | WildPointer (a : addr)
  | OutOfBounds (a : addr) (i : nat)
  | DeadObject (o : objid).

Inductive result (A : Type) : Type :=
  | Ok (a : A)
  | Fault (f : fault).
Arguments Ok {A} a.
Arguments Fault {A} f.

Definition M (S A : Type) : Type := S → result (A * S).

Definition ret {S A} (a : A) : M S A := λ s, Ok (a, s).

Definition bind {S A B} (m : M S A) (k : A → M S B) : M S B :=
  λ s, match m s with
       | Ok (a, s') => k a s'
       | Fault f => Fault f
       end.

Definition lift {S A} (r : result A) : M S A :=
  λ s, match r with Ok a => Ok (a, s) | Fault f => Fault f end.

Definition gets {S A} (f : S → A) : M S A := λ s, Ok (f s, s).
Definition modify {S} (f : S → S) : M S unit := λ s, Ok (tt, f s).

Declare Scope cpp_scope.
Delimit Scope cpp_scope with cpp.
Notation "x <- m ; k" := (bind m (λ x, k))
  (at level 100, m at next level, k at level 200, right associativity,
   format "'[v' x  <-  m ; '/' k ']'") : cpp_scope.
Notation "m ;; k" := (bind m (λ _, k))
  (at level 100, k at level 200, right associativity,
   format "'[v' m ;; '/' k ']'") : cpp_scope.
Open Scope cpp_scope.

(** The state reached by a computation, when it does not fault. *)
Definition exec {S A} (m : M S A) (s : S) : result S :=
  match m s with Ok (_, s') => Ok s' | Fault f => Fault f end.

(** ** The heap: cells are live or freed, addresses are never reused *)

Inductive cell (V : Type) : Type :=
  | Live (v : V)
  | Freed.
Arguments Live {V} v.
Arguments Freed {V}.

Section Heap.
Context {V : Type}.

(** [new T(v)]: an address that was never handed out before. *)
Definition heap_new (h : gmap positive (cell V)) (v : V)
  : positive * gmap positive (cell V) :=
  let a := fresh (dom h) in (a, <[a := Live v]> h).

(** [*p] *)
Definition heap_load (h : gmap positive (cell V)) (p : option positive)
  : result V :=
  match p with
  | None => Fault NullDeref
  | Some a =>
      match h !! a with
      | Some (Live v) => Ok v
      | Some Freed => Fault (UseAfterFree a)
      | None => Fault (WildPointer a)
      end
  end.

(** [*p = v] *)
Definition heap_store (h : gmap positive (cell V)) (p : option positive)
    (v : V) : result (gmap positive (cell V)) :=
  match p with
  | None => Fault NullDeref
  | Some a =>
      match h !! a with
      | Some (Live _) => Ok (<[a := Live v]> h)
      | Some Freed => Fault (UseAfterFree a)
      | None => Fault (WildPointer a)
      end
  end.

(** [delete p] / [delete[] p]: a no-op on the null pointer. *)
Definition heap_delete (h : gmap positive (cell V)) (p : option positive)
  : result (gmap positive (cell V)) :=
  match p with
  | None => Ok h
  | Some a =>
      match h !! a with
      | Some (Live _) => Ok (<[a := Freed]> h)
      | Some Freed => Fault (DoubleFree a)
      | None => Fault (WildPointer a)
      end
  end.
End Heap.

(** The end-of-line character written by ["\n"] and [std::endl]. *)
Definition nl : string := String "010"%char "".

(** ** Tracer (01_rule_of_five.h) *)

Module Tracer.

(** [struct Tracer { std::string name; int* resource; }] *)
Record Tracer : Type := mkTracer {
  name : string;
  resource : option positive
}.

Record state : Type := mkState {
  objs : gmap positive Tracer;          (* live Tracer objects, by address *)
  heap : gmap positive (cell Z);        (* the [int] cells *)
  frame : list positive;                (* automatic objects of the open scope,
                                           last declared first *)
  out : list string                     (* texts written to std::cout *)
}.

Definition init : state :=
  {| objs := ∅; heap := ∅; frame := []; out := [] |}.

Definition set_objs (f : gmap positive Tracer → gmap positive Tracer) (s : state) :=
  {| objs := f (objs s); heap := heap s; frame := frame s; out := out s |}.
Definition set_heap (h : gmap positive (cell Z)) (s : state) :=
  {| objs := objs s; heap := h; frame := frame s; out := out s |}.
Definition set_frame (fr : list positive) (s : state) :=
  {| objs := objs s; heap := heap s; frame := fr; out := out s |}.

(** *** Primitive statements *)

(** [std::cout << ...;] one entry per statement *)
Definition cout (text : string) : M state unit :=
  modify (λ s, {| objs := objs s; heap := heap s; frame := frame s;
                  out := out s ++ [text] |}).

Definition get_obj (o : positive) : M state Tracer :=
  λ s, match objs s !! o with
       | Some t => Ok (t, s)
       | None => Fault (DeadObject o)
       end.

Definition get_name (o : positive) : M state string :=
  t <- get_obj o; ret (name t).
Definition get_resource (o : positive) : M state (option positive) :=
  t <- get_obj o; ret (resource t).

Definition set_name (o : positive) (n : string) : M state unit :=
  t <- get_obj o;
  modify (set_objs (insert o {| name := n; resource := resource t |})).
Definition set_resource (o : positive) (p : option positive) : M state unit :=
  t <- get_obj o;
  modify (set_objs (insert o {| name := name t; resource := p |})).

(** The lifetime of the object at [o] begins / ends. *)
Definition begin_obj (o : positive) (t : Tracer) : M state unit :=
  modify (set_objs (insert o t)).
Definition end_obj (o : positive) : M state unit :=
  modify (set_objs (delete o)).

(** [new int(v)] *)
Definition new_int (v : Z) : M state positive :=
  λ s, let '(a, h) := heap_new (heap s) v in Ok (a, set_heap h s).
(** [*p] *)
Definition load (p : option positive) : M state Z :=
  λ s, lift (heap_load (heap s) p) s.
(** [*p = v] *)
Definition store (p : option positive) (v : Z) : M state unit :=
  λ s, match heap_store (heap s) p v with
       | Ok h => Ok (tt, set_heap h s)
       | Fault f => Fault f
       end.
(** [delete p] *)
Definition delete_int (p : option positive) : M state unit :=
  λ s, match heap_delete (heap s) p with
       | Ok h => Ok (tt, set_heap h s)
       | Fault f => Fault f
       end.

(** What [a = std::move(b)] leaves in the [std::string] [b]: the
    implementations the examples were run on leave it empty, and the
    [+=] of the move operations below builds on that. *)
Definition moved_from_string : string := "".

(** *** The special member functions, statement by statement *)

(** [Tracer(std::string n) : name(std::move(n)), resource(new int(42))] *)
Definition Tracer_ctor (this : positive) (n : string) : M state unit :=
  a <- new_int 42;
  begin_obj this {| name := n; resource := Some a |};;
  nm <- get_name this;
  cout ("  " +:+ nm +:+ ": Constructor" +:+ nl).

(** [~Tracer()] *)
Definition Tracer_dtor (this : positive) : M state unit :=
  nm <- get_name this;
  cout ("  " +:+ nm +:+ ": Destructor" +:+ nl);;
  r <- get_resource this;
  delete_int r;;
  end_obj this.

(** [Tracer(const Tracer& other) : name(other.name),
    resource(new int( *other.resource ))] *)
Definition Tracer_copy_ctor (this other : positive) : M state unit :=
  on <- get_name other;
  r <- get_resource other;
  v <- load r;
  a <- new_int v;
  begin_obj this {| name := on; resource := Some a |};;
  nm <- get_name this;
  on <- get_name other;
  cout ("  " +:+ nm +:+ ": COPY Constructor from " +:+ on +:+ nl).

(** [Tracer& operator=(const Tracer& other)] *)
Definition Tracer_copy_assign (this other : positive) : M state unit :=
  if decide (this = other) then ret tt else
  nm <- get_name this;
  on <- get_name other;
  cout ("  " +:+ nm +:+ ": COPY Assignment from " +:+ on +:+ nl);;
  r <- get_resource other;
  v <- load r;
  new_res <- new_int v;
  old <- get_resource this;
  delete_int old;;
  set_resource this (Some new_res);;
  on <- get_name other;
  set_name this on.

(** [Tracer(Tracer&& other) noexcept] *)
Definition Tracer_move_ctor (this other : positive) : M state unit :=
  original_other_name <- get_name other;
  begin_obj this {| name := ""; resource := None |};;
  on <- get_name other;
  set_name this on;;
  set_name other moved_from_string;;
  r <- get_resource other;
  set_resource this r;;
  nm <- get_name this;
  cout ("  " +:+ nm +:+ ": MOVE Constructor from " +:+ original_other_name +:+ nl);;
  set_resource other None;;
  on <- get_name other;
  set_name other (on +:+ (original_other_name +:+ " [moved]")).

(** [Tracer& operator=(Tracer&& other) noexcept] *)
Definition Tracer_move_assign (this other : positive) : M state unit :=
  if decide (this = other) then ret tt else
  original_other_name <- get_name other;
  nm <- get_name this;
  on <- get_name other;
  cout ("  " +:+ nm +:+ ": MOVE Assignment from " +:+ on +:+ nl);;
  old <- get_resource this;
  delete_int old;;
  r <- get_resource other;
  set_resource this r;;
  on <- get_name other;
  set_name this on;;
  set_resource other None;;
  on <- get_name other;
  set_name other (on +:+ (original_other_name +:+ " [moved]")).

(** Both move operations are declared [noexcept]. *)
Definition Tracer_nothrow_move_constructible : bool := true.

(** [*o.resource = w]: a write through the resource pointer of the object
    at [o].  The exercises never do it; the independence of a copy is
    stated over such writes. *)
Definition write_resource (o : positive) (w : Z) : M state unit :=
  r <- get_resource o;
  store r w.

Fixpoint write_all (o : positive) (ws : list Z) : M state unit :=
  match ws with
  | [] => ret tt
  | w :: ws' => write_resource o w;; write_all o ws'
  end.

(** *** Programs over the special member functions *)

Inductive op : Type :=
  | Construct (this : positive) (n : string)
  | Destruct (this : positive)
  | CopyConstruct (this other : positive)
  | CopyAssign (this other : positive)
  | MoveConstruct (this other : positive)
  | MoveAssign (this other : positive).

Definition run_op (o : op) : M state unit :=
  match o with
  | Construct this n => Tracer_ctor this n
  | Destruct this => Tracer_dtor this
  | CopyConstruct this other => Tracer_copy_ctor this other
  | CopyAssign this other => Tracer_copy_assign this other
  | MoveConstruct this other => Tracer_move_ctor this other
  | MoveAssign this other => Tracer_move_assign this other
  end.

Fixpoint run_ops (l : list op) : M state unit :=
  match l with
  | [] => ret tt
  | o :: l' => run_op o;; run_ops l'
  end.

(** *** Scopes: automatic objects die in reverse order of declaration *)

(** The address of the next object. *)
Definition fresh_obj : M state positive :=
  gets (λ s, fresh (dom (objs s))).

(** [Tracer x ...;] a declaration statement: the object is constructed
    and registered with the open scope. *)
Definition declare (construct : positive → M state unit) : M state positive :=
  this <- fresh_obj;
  construct this;;
  modify (λ s, set_frame (this :: frame s) s);;
  ret this.

Fixpoint destroy_all (l : list positive) : M state unit :=
  match l with
  | [] => ret tt
  | o :: l' => Tracer_dtor o;; destroy_all l'
  end.

(** The closing brace. *)
Definition leave_scope : M state unit :=
  fr <- gets frame;
  destroy_all fr;;
  modify (set_frame []).

(** [{ body }] *)
Definition scope {A} (body : M state A) : M state A :=
  saved <- gets frame;
  modify (set_frame []);;
  a <- body;
  leave_scope;;
  modify (set_frame saved);;
  ret a.

(** *** std::vector<Tracer>, as far as the exercises use it

    The elements are Tracer objects of the store; the vector value holds
    their addresses in order and the capacity of its buffer.  Growth
    follows the standard library the answers of the repository were
    recorded with: the new element is constructed in the new buffer
    first, then the old elements are relocated front to back.  When the
    element type is nothrow-move-constructible each one is move-constructed
    and its source destroyed at once; otherwise every element is
    copy-constructed and the old buffer is destroyed afterwards. *)

Record vector : Type := mkVector {
  elems : list positive;
  capacity : nat
}.

Fixpoint relocate_by_move (old : list positive) : M state (list positive) :=
  match old with
  | [] => ret []
  | e :: old' =>
      e' <- fresh_obj;
      Tracer_move_ctor e' e;;
      Tracer_dtor e;;
      rest <- relocate_by_move old';
      ret (e' :: rest)
  end.

Fixpoint copy_all (old : list positive) : M state (list positive) :=
  match old with
  | [] => ret []
  | e :: old' =>
      e' <- fresh_obj;
      Tracer_copy_ctor e' e;;
      rest <- copy_all old';
      ret (e' :: rest)
  end.

Definition relocate (nothrow_move : bool) (old : list positive)
  : M state (list positive) :=
  if nothrow_move then relocate_by_move old
  else (new <- copy_all old; destroy_all old;; ret new).

(** [vec.reserve(n)] *)
Definition vector_reserve (nothrow_move : bool) (vec : vector) (n : nat)
  : M state vector :=
  if decide (n ≤ capacity vec)%nat then ret vec
  else
    new <- relocate nothrow_move (elems vec);
    ret {| elems := new; capacity := n |}.

(** [vec.emplace_back(name)] *)
Definition vector_emplace_back (nothrow_move : bool) (vec : vector)
    (n : string) : M state vector :=
  if decide (length (elems vec) < capacity vec)%nat then
    this <- fresh_obj;
    Tracer_ctor this n;;
    ret {| elems := elems vec ++ [this]; capacity := capacity vec |}
  else
    let new_capacity := (length (elems vec) + max (length (elems vec)) 1)%nat in
    this <- fresh_obj;
    Tracer_ctor this n;;
    new <- relocate nothrow_move (elems vec);
    ret {| elems := new ++ [this]; capacity := new_capacity |}.

(** [~vector()] destroys the elements front to back. *)
Definition vector_dtor (vec : vector) : M state unit :=
  destroy_all (elems vec).

(** *** The exercises of Program_01_CopyMove *)

Definition exercise_1_1 : M state unit :=
  scope (
    cout (nl +:+ "🚀 Exercise 1.1" +:+ nl);;
    t1 <- declare (λ this, Tracer_ctor this "t1");
    t2 <- declare (λ this, Tracer_copy_ctor this t1);
    cout ("...end of scope" +:+ nl)).

Definition exercise_1_2 : M state unit :=
  scope (
    cout (nl +:+ "🚀 Exercise 1.2" +:+ nl);;
    t1 <- declare (λ this, Tracer_ctor this "t1");
    t2 <- declare (λ this, Tracer_ctor this "t2");
    Tracer_copy_assign t2 t1;;
    cout ("...end of scope" +:+ nl)).

Definition exercise_2_3 : M state unit :=
  scope (
    cout (nl +:+ "🚀 Exercise 2.3" +:+ nl);;
    t1 <- declare (λ this, Tracer_ctor this "t1");
    t4 <- declare (λ this, Tracer_move_ctor this t1);
    n1 <- get_name t1;
    cout ("State of t1: name = '" +:+ n1 +:+ "'" +:+ nl)).

Definition exercise_5_1 : M state unit :=
  scope (
    cout (nl +:+ "🚀 Exercise 5.1" +:+ nl);;
    a <- declare (λ this, Tracer_ctor this "Alice");
    b <- declare (λ this, Tracer_ctor this "Bob");
    na <- get_name a;
    nb <- get_name b;
    cout ("Before move: a = " +:+ na +:+ ", b = " +:+ nb +:+ nl);;
    Tracer_move_assign a b;;
    na <- get_name a;
    nb <- get_name b;
    cout ("After move:  a = " +:+ na +:+ ", b = " +:+ nb +:+ nl)).

(** [vec] is the only automatic object of the scope: its destructor runs
    at the closing brace.  [nothrow] says whether the move constructor of
    the element type is [noexcept]. *)
Definition exercise_6_1_for (nothrow : bool) : M state unit :=
  scope (
    cout (nl +:+ "🚀 Exercise 6.1" +:+ nl);;
    let vec := {| elems := []; capacity := 0 |} in
    vec <- vector_reserve nothrow vec 4;
    cout ("Adding 4 elements..." +:+ nl);;
    vec <- vector_emplace_back nothrow vec "v0";
    vec <- vector_emplace_back nothrow vec "v1";
    vec <- vector_emplace_back nothrow vec "v2";
    vec <- vector_emplace_back nothrow vec "v3";
    cout ("Forcing reallocation..." +:+ nl);;
    vec <- vector_emplace_back nothrow vec "v4";
    cout ("Size of vector: " +:+ pretty (length (elems vec))
          +:+ ", capacity of vector: " +:+ pretty (capacity vec) +:+ nl);;
    vector_dtor vec).

Definition exercise_6_1 : M state unit :=
  exercise_6_1_for Tracer_nothrow_move_constructible.

(** *** Reading traces *)

(** The name of the object at [o], for the trace lines. *)
Definition name_of (s : state) (o : positive) : string :=
  match objs s !! o with Some t => name t | None => "" end.

Definition dtor_line (n : string) : string :=
  "  " +:+ n +:+ ": Destructor" +:+ nl.

Definition move_ctor_line (n : string) : string :=
  "  " +:+ n +:+ ": MOVE Constructor from " +:+ n +:+ nl.

(** The objects of the open scope in the order they were declared. *)
Definition declaration_order (s : state) : list positive := rev (frame s).

(** Does [line] contain [what]? *)
Definition mentions (what line : string) : bool :=
  match String.index 0 what line with Some _ => true | None => false end.

Fixpoint count_mentions (what : string) (lines : list string) : nat :=
  match lines with
  | [] => 0
  | l :: lines' =>
      ((if mentions what l then 1 else 0) + count_mentions what lines')%nat
  end.

(** *** Ownership

    Every live Tracer that holds a pointer holds a live cell, and no two
    live Tracers hold the same cell. *)

Definition owns_live (s : state) : Prop :=
  ∀ o t a, objs s !! o = Some t → resource t = Some a →
           ∃ v, heap s !! a = Some (Live v).
Definition single_owner (s : state) : Prop :=
  ∀ o1 o2 t1 t2 a, objs s !! o1 = Some t1 → objs s !! o2 = Some t2 →
                   resource t1 = Some a → resource t2 = Some a → o1 = o2.
Definition wf (s : state) : Prop := owns_live s ∧ single_owner s.

(** The faults a program over a well-formed state can run into: it copies
    from a moved-from object, or names an object that is not alive. *)
Definition benign (f : fault) : Prop :=
  f = NullDeref ∨ ∃ o, f = DeadObject o.

Definition safe (r : result state) : Prop :=
  match r with
  | Ok s' => wf s'
  | Fault f => benign f
  end.

(** *** States and traces the statements below refer to *)

Definition built (ops : list op) : state :=
  match exec (run_ops ops) init with Ok s => s | Fault _ => init end.

(** [Tracer a("Alice"); Tracer b("Bob");] inside a scope *)
Definition alice_and_bob : state :=
  match exec (declare (λ this, Tracer_ctor this "Alice");;
              declare (λ this, Tracer_ctor this "Bob")) init with
  | Ok s => s
  | Fault _ => init
  end.

Definition trace_of (m : M state unit) : result (list string) :=
  match exec m init with Ok s => Ok (out s) | Fault f => Fault f end.

(** The lines exercise 6.1 prints while the vector grows. *)
Definition relocation_lines : list string :=
  [ "  v4: Constructor" +:+ nl;
    "  v0: MOVE Constructor from v0" +:+ nl;
    "  v0 [moved]: Destructor" +:+ nl;
    "  v1: MOVE Constructor from v1" +:+ nl;
    "  v1 [moved]: Destructor" +:+ nl;
    "  v2: MOVE Constructor from v2" +:+ nl;
    "  v2 [moved]: Destructor" +:+ nl;
    "  v3: MOVE Constructor from v3" +:+ nl;
    "  v3 [moved]: Destructor" +:+ nl ].

(** The copy-construction line as the specification words it. *)
Definition spec_copy_ctor_line (n other_name : string) : string :=
  n +:+ ": COPY CONSTRUCTOR from " +:+ other_name.

End Tracer.

(** ** The scopes of the harness that declare two Tracers

    Exercises 1.1, 1.2, 2.3 and 5.1 have the same shape: some output, a
    first declaration, a second declaration that may use the first object,
    and the statements up to the closing brace. *)

Module TracerScopes.
Import Tracer.

(** [{ pre; Tracer t1 ...; Tracer t2 ...; rest }]: [d1] constructs the first
    object, [d2 t1] the second, [rest t1 t2] is what follows. *)
Definition two_declarations (pre : M state unit)
    (d1 : positive → M state unit) (d2 : positive → positive → M state unit)
    (rest : positive → positive → M state unit) : M state unit :=
  scope (
    pre;;
    t1 <- declare d1;
    t2 <- declare (d2 t1);
    rest t1 t2).

(** The run of such a scope from the empty state, step by step: the first
    declaration writes [line1] and makes [t1] the first declared object;
    the second writes [line2] and makes [t2] the second; at the closing
    brace the destructor of [t2] runs first, writes its line [last2] and
    ends [t2] while [t1] is still alive, then the destructor of [t1] runs
    and writes [last1]; and that is the whole run of the scope. *)
Definition destroyed_in_reverse (pre : M state unit)
    (d1 : positive → M state unit) (d2 : positive → positive → M state unit)
    (rest : positive → positive → M state unit)
    (line1 line2 last2 last1 : string) : Prop :=
  ∃ (t1 t2 : positive) (s0 s_1 s_2 s_end s_d2 s_d1 : state),
    pre init = Ok (tt, s0) ∧
    declare d1 s0 = Ok (t1, s_1) ∧
    out s_1 = out s0 ++ [line1] ∧
    declaration_order s_1 = [t1] ∧
    declare (d2 t1) s_1 = Ok (t2, s_2) ∧
    out s_2 = out s_1 ++ [line2] ∧
    declaration_order s_2 = [t1; t2] ∧
    t1 ≠ t2 ∧
    rest t1 t2 s_2 = Ok (tt, s_end) ∧
    declaration_order s_end = [t1; t2] ∧
    exec (Tracer_dtor t2) s_end = Ok s_d2 ∧
    out s_d2 = out s_end ++ [dtor_line (name_of s_end t2)] ∧
    dtor_line (name_of s_end t2) = last2 ∧
    objs s_d2 !! t2 = None ∧ is_Some (objs s_d2 !! t1) ∧
    exec (Tracer_dtor t1) s_d2 = Ok s_d1 ∧
    out s_d1 = out s_d2 ++ [dtor_line (name_of s_end t1)] ∧
    dtor_line (name_of s_end t1) = last1 ∧
    objs s_d1 !! t1 = None ∧
    exec (two_declarations pre d1 d2 rest) init = Ok (set_frame [] s_d1).

End TracerScopes.


(** ** The earlier Tracer, without a resource

    The first version of the exercises: the same six operations over the
    name alone, with the upper-case wording of the trace lines. *)

Module NameTracer.

Record state : Type := mkState {
  objs : gmap positive string;          (* the name of each live Tracer *)
  out : list string
}.

Definition init : state := {| objs := ∅; out := [] |}.

Definition cout (text : string) : M state unit :=
  modify (λ s, {| objs := objs s; out := out s ++ [text] |}).

Definition get_name (o : positive) : M state string :=
  λ s, match objs s !! o with
       | Some n => Ok (n, s)
       | None => Fault (DeadObject o)
       end.

Definition set_name (o : positive) (n : string) : M state unit :=
  _ <- get_name o;
  modify (λ s, {| objs := <[o := n]> (objs s); out := out s |}).

Definition begin_obj (o : positive) (n : string) : M state unit :=
  modify (λ s, {| objs := <[o := n]> (objs s); out := out s |}).
Definition end_obj (o : positive) : M state unit :=
  modify (λ s, {| objs := delete o (objs s); out := out s |}).

(** [Tracer(std::string n) : name(std::move(n))] *)
Definition Tracer_ctor (this : positive) (n : string) : M state unit :=
  begin_obj this n;;
  nm <- get_name this;
  cout ("  " +:+ nm +:+ ": Constructor" +:+ nl).

(** [~Tracer()] *)
Definition Tracer_dtor (this : positive) : M state unit :=
  nm <- get_name this;
  cout ("  " +:+ nm +:+ ": Destructor" +:+ nl);;
  end_obj this.

(** [Tracer(const Tracer& other) : name(other.name)] *)
Definition Tracer_copy_ctor (this other : positive) : M state unit :=
  on <- get_name other;
  begin_obj this on;;
  nm <- get_name this;
  on <- get_name other;
  cout ("  " +:+ nm +:+ ": COPY CONSTRUCTOR from " +:+ on +:+ nl).

(** [Tracer& operator=(const Tracer& other)]: no self-assignment guard *)
Definition Tracer_copy_assign (this other : positive) : M state unit :=
  nm <- get_name this;
  on <- get_name other;
  cout ("  " +:+ nm +:+ ": COPY ASSIGNMENT from " +:+ on +:+ nl);;
  on <- get_name other;
  set_name this on.

(** [Tracer(Tracer&& other) noexcept] *)
Definition Tracer_move_ctor (this other : positive) : M state unit :=
  begin_obj this "";;
  on <- get_name other;
  cout ("  " +:+ on +:+ ": MOVE CONSTRUCTOR (into a new object)" +:+ nl);;
  on <- get_name other;
  set_name this on;;
  set_name other Tracer.moved_from_string.

(** [Tracer& operator=(Tracer&& other) noexcept] *)
Definition Tracer_move_assign (this other : positive) : M state unit :=
  nm <- get_name this;
  on <- get_name other;
  cout ("  " +:+ nm +:+ ": MOVE ASSIGNMENT from " +:+ on +:+ nl);;
  on <- get_name other;
  set_name this on;;
  set_name other Tracer.moved_from_string.

End NameTracer.

(** ** NaiveString, BetterString and their main (shallow_vs_deep_copy) *)

Module Strings.

Record state : Type := mkState {
  heap : gmap positive (cell (list ascii));   (* the [char] arrays *)
  out : list string
}.

Definition init : state := {| heap := ∅; out := [] |}.

Definition set_heap (h : gmap positive (cell (list ascii))) (s : state) :=
  {| heap := h; out := out s |}.

Definition cout (text : string) : M state unit :=
  modify (λ s, {| heap := heap s; out := out s ++ [text] |}).

Definition NUL : ascii := "000"%char.

(** A [const char*] argument is given by the characters of its literal,
    which the compiler follows with a terminator.  The C string it points
    to ends at the first terminator, also when that one is written inside
    the literal. *)
Fixpoint c_str (s : string) : string :=
  match s with
  | EmptyString => EmptyString
  | String c s' => if decide (c = NUL) then EmptyString else String c (c_str s')
  end.

(** [std::strlen]: the number of characters before the first terminator. *)
Definition strlen (s : string) : nat := String.length (c_str s).

(** [new char[n]].  C++ leaves the contents of the new array indeterminate;
    here it starts out filled with terminators.  The constructors write
    the array before anything reads it. *)
Definition new_char_array (n : nat) : M state positive :=
  λ s, let '(a, h) := heap_new (heap s) (replicate n NUL) in
       Ok (a, set_heap h s).

(** Writing [chars] into the array at [p], from index 0 on. *)
Definition write_chars (p : option positive) (chars : list ascii)
  : M state unit :=
  λ s, match heap_load (heap s) p with
       | Ok buf =>
           if decide (length chars ≤ length buf)%nat then
             match heap_store (heap s) p (chars ++ drop (length chars) buf) with
             | Ok h => Ok (tt, set_heap h s)
             | Fault f => Fault f
             end
           else Fault (OutOfBounds (default 1%positive p) (length buf))
       | Fault f => Fault f
       end.

(** The C string stored at [p]: the characters before the first
    terminator. *)
Fixpoint until_NUL (buf : list ascii) : option string :=
  match buf with
  | [] => None
  | c :: buf' =>
      if decide (c = NUL) then Some ""
      else String c <$> until_NUL buf'
  end.

(** Reading the array at [p] as a C string, as [std::cout << p] and
    [std::strcpy(_, p)] do.  On an array without a terminator the read runs
    past the end of the array, which is undefined behaviour: the model
    stops there with [OutOfBounds] and says nothing about what follows. *)
Definition read_c_str (p : option positive) : M state string :=
  λ s, match heap_load (heap s) p with
       | Ok buf =>
           match until_NUL buf with
           | Some str => Ok (str, s)
           | None => Fault (OutOfBounds (default 1%positive p) (length buf))
           end
       | Fault f => Fault f
       end.

(** [std::strcpy(dst, src)] copies the characters and the terminator. *)
Definition strcpy (dst : option positive) (src : string) : M state unit :=
  write_chars dst (list_ascii_of_string (c_str src) ++ [NUL]).

(** [p[i] = c] *)
Definition write_char (p : option positive) (i : nat) (c : ascii)
  : M state unit :=
  λ s, match heap_load (heap s) p with
       | Ok buf =>
           if decide (i < length buf)%nat then
             match heap_store (heap s) p (<[i := c]> buf) with
             | Ok h => Ok (tt, set_heap h s)
             | Fault f => Fault f
             end
           else Fault (OutOfBounds (default 1%positive p) i)
       | Fault f => Fault f
       end.

(** [delete[] p] *)
Definition delete_array (p : option positive) : M state unit :=
  λ s, match heap_delete (heap s) p with
       | Ok h => Ok (tt, set_heap h s)
       | Fault f => Fault f
       end.

(** *** NaiveString (01_naive_string.h) *)

Record NaiveString : Type := mkNaiveString {
  m_data : option positive;
  m_size : nat
}.

(** [NaiveString(const char* initial_data)] *)
Definition NaiveString_ctor (initial_data : string) : M state NaiveString :=
  cout ("Constructor called for '" +:+ c_str initial_data +:+ "'" +:+ nl);;
  let size := (strlen initial_data + 1)%nat in
  a <- new_char_array size;
  strcpy (Some a) initial_data;;
  ret {| m_data := Some a; m_size := size |}.

(** The copy constructor the compiler generates: member by member. *)
Definition NaiveString_copy (other : NaiveString) : NaiveString :=
  {| m_data := m_data other; m_size := m_size other |}.

(** [~NaiveString()] *)
Definition NaiveString_dtor (this : NaiveString) : M state unit :=
  str <- read_c_str (m_data this);
  cout ("Destructor called for '" +:+ str +:+ "'" +:+ nl);;
  delete_array (m_data this).

(** [void print() const] *)
Definition NaiveString_print (this : NaiveString) : M state unit :=
  str <- read_c_str (m_data this);
  cout (str +:+ nl).

(** [Program_01_Naive_String::Run] up to its closing brace *)
Definition Naive_Run_body : M state (NaiveString * NaiveString) :=
  str1 <- NaiveString_ctor "Hello";
  cout ("Copying str1 to str2..." +:+ nl);;
  let str2 := NaiveString_copy str1 in
  cout "str1: ";; NaiveString_print str1;;
  cout "str2: ";; NaiveString_print str2;;
  write_char (m_data str2) 0 "J"%char;;
  cout (nl +:+ "After modifying str2:" +:+ nl);;
  cout "str1: ";; NaiveString_print str1;;
  cout "str2: ";; NaiveString_print str2;;
  cout (nl +:+ "Exiting main. Destructors will be called." +:+ nl);;
  ret (str1, str2).

(** [Program_01_Naive_String::Run]: at the closing brace [str2] is
    destroyed, then [str1]. *)
Definition Program_01_Naive_String_Run : M state unit :=
  strs <- Naive_Run_body;
  NaiveString_dtor (snd strs);;
  NaiveString_dtor (fst strs).

(** *** BetterString *)

Record BetterString : Type := mkBetterString {
  b_data : option positive;
  b_size : nat
}.

Definition BetterString_ctor (initial_data : string) : M state BetterString :=
  cout ("Constructor called for '" +:+ c_str initial_data +:+ "'" +:+ nl);;
  let size := (strlen initial_data + 1)%nat in
  a <- new_char_array size;
  strcpy (Some a) initial_data;;
  ret {| b_data := Some a; b_size := size |}.

Definition BetterString_dtor (this : BetterString) : M state unit :=
  str <- read_c_str (b_data this);
  cout ("Destructor called for '" +:+ str +:+ "'" +:+ nl);;
  delete_array (b_data this).

(** [BetterString(const BetterString& other)]: the deep copy *)
Definition BetterString_copy_ctor (other : BetterString) : M state BetterString :=
  cout ("Deep copy constructor called." +:+ nl);;
  let size := b_size other in
  a <- new_char_array size;
  str <- read_c_str (b_data other);
  strcpy (Some a) str;;
  ret {| b_data := Some a; b_size := size |}.

Definition BetterString_print (this : BetterString) : M state unit :=
  str <- read_c_str (b_data this);
  cout (str +:+ nl).

Definition Program_02_Better_String_Run : M state unit :=
  str1 <- BetterString_ctor "Hello";
  str2 <- BetterString_copy_ctor str1;
  cout "str1: ";; BetterString_print str1;;
  cout "str2: ";; BetterString_print str2;;
  write_char (b_data str2) 0 "J"%char;;
  cout (nl +:+ "After modifying str2:" +:+ nl);;
  cout "str1: ";; BetterString_print str1;;
  cout "str2: ";; BetterString_print str2;;
  cout (nl +:+ "Exiting main. Destructors will be called." +:+ nl);;
  BetterString_dtor str2;;
  BetterString_dtor str1.

(** *** main (shallow_vs_deep_copy/src/main.cpp)

    [arg1] is [std::atoi(argv[1])] when an argument was given. *)
Definition main (arg1 : option Z) : M state Z :=
  let programId := match arg1 with Some n => n | None => 1%Z end in
  cout ("Running program " +:+ pretty programId +:+ "..." +:+ nl);;
  match programId with
  | 1%Z => Program_01_Naive_String_Run
  | 2%Z => Program_02_Better_String_Run
  | _ => ret tt
  end;;
  ret 0%Z.

(** *** Buffers and lines the statements below refer to *)

Definition HELLO : list ascii := list_ascii_of_string "Hello" ++ [NUL].
Definition JELLO : list ascii := list_ascii_of_string "Jello" ++ [NUL].

(** The line [main] prints before it dispatches. *)
Definition header (programId : Z) : string :=
  "Running program " +:+ pretty programId +:+ "..." +:+ nl.

End Strings.

(** ** main of the std_format examples

    The four programs it selects from are parameters: only the dispatch is
    modelled. *)

Module StdFormat.
Section Main.
Context {S : Type}.
Variable cout : string → M S unit.
Variables Program_01_Basics_Run Program_02_CustomFormatter_Run
          Program_03_Custom_Formater_Parse_Run Program_04_Locales_Run
  : M S unit.

Definition main (arg1 : option Z) : M S Z :=
  let programId := match arg1 with Some n => n | None => 4%Z end in
  cout ("Running program " +:+ pretty programId +:+ "..." +:+ nl);;
  match programId with
  | 1%Z => Program_01_Basics_Run
  | 2%Z => Program_02_CustomFormatter_Run
  | 3%Z => Program_03_Custom_Formater_Parse_Run
  | 4%Z => Program_04_Locales_Run
  | _ => ret tt
  end;;
  ret 0%Z.
End Main.
End StdFormat.


(** ** The rest of Program_01_CopyMove (01_rule_of_five.h) *)

Module TracerRun.
Import Tracer.

(** No cell is lost: every live cell is the resource of a live Tracer. *)
Definition no_leak (s : state) : Prop :=
  ∀ a v, heap s !! a = Some (Live v) →
         ∃ o t, objs s !! o = Some t ∧ resource t = Some a.

(** A constructor runs on storage that holds no live object. *)
Definition on_new_storage (s : state) (o : op) : Prop :=
  match o with
  | Construct this _ | CopyConstruct this _ | MoveConstruct this _ =>
      objs s !! this = None
  | Destruct _ | CopyAssign _ _ | MoveAssign _ _ => True
  end.

(** The live cells of a heap, for the end of a run. *)
Definition live_cells (h : gmap positive (cell Z)) : list (positive * Z) :=
  omap (λ ac, match ac.2 with Live v => Some (ac.1, v) | Freed => None end)
       (map_to_list h).

(** [Tracer createTracer(const std::string& name) { return Tracer(name); }]
    The returned prvalue initialises its destination [dest] directly. *)
Definition createTracer (dest : positive) (n : string) : M state unit :=
  Tracer_ctor dest n.

(** [Tracer createTracerNamed(const std::string& name)
      { Tracer temp(name); return temp; }]
    With the named return value optimisation [temp] is the destination;
    without it the destination is move-constructed from [temp], which is
    then destroyed.  The compiler chooses: [nrvo]. *)
Definition createTracerNamed (nrvo : bool) (dest : positive) (n : string)
  : M state unit :=
  if nrvo then Tracer_ctor dest n
  else
    temp <- gets (λ s, fresh ({[dest]} ∪ dom (objs s)));
    Tracer_ctor temp n;;
    Tracer_move_ctor dest temp;;
    Tracer_dtor temp.

(** [vec.push_back(x)]: [construct] builds the new element from [x], by
    copy for an lvalue and by move for an rvalue.  Growth is as for
    [vector_emplace_back]. *)
Definition vector_push_back (nothrow_move : bool) (vec : vector)
    (construct : positive → M state unit) : M state vector :=
  if decide (length (elems vec) < capacity vec)%nat then
    this <- fresh_obj;
    construct this;;
    ret {| elems := elems vec ++ [this]; capacity := capacity vec |}
  else
    let new_capacity := (length (elems vec) + max (length (elems vec)) 1)%nat in
    this <- fresh_obj;
    construct this;;
    new <- relocate nothrow_move (elems vec);
    ret {| elems := new ++ [this]; capacity := new_capacity |}.

Definition exercise_2_1 : M state unit :=
  scope (
    cout (nl +:+ "🚀 Exercise 2.1" +:+ nl);;
    t3 <- declare (λ this, createTracer this "temp");
    cout ("...end of scope" +:+ nl)).

Definition exercise_2_2 (nrvo : bool) : M state unit :=
  scope (
    cout (nl +:+ "🚀 Exercise 2.2" +:+ nl);;
    t3 <- declare (λ this, createTracerNamed nrvo this "temp");
    cout ("...end of scope" +:+ nl)).

(** [t5 = createTracer("temp");] the temporary dies at the end of the
    statement. *)
Definition exercise_2_4 : M state unit :=
  scope (
    cout (nl +:+ "🚀 Exercise 2.4" +:+ nl);;
    t5 <- declare (λ this, Tracer_ctor this "t5");
    temp <- fresh_obj;
    createTracer temp "temp";;
    Tracer_move_assign t5 temp;;
    Tracer_dtor temp).

(** [vec] is declared before [t1] and so outlives it. *)
Definition exercise_3_1 : M state unit :=
  let nothrow := Tracer_nothrow_move_constructible in
  cout (nl +:+ "🚀 Exercise 3.1" +:+ nl);;
  let vec := {| elems := []; capacity := 0 |} in
  vec <- scope (
    t1 <- declare (λ this, Tracer_ctor this "t1");
    cout ("Pushing back t1 (lvalue)..." +:+ nl);;
    vec <- vector_push_back nothrow vec (λ this, Tracer_copy_ctor this t1);
    cout ("Pushing back temporary (rvalue)..." +:+ nl);;
    temp <- fresh_obj;
    createTracer temp "temp";;
    vec <- vector_push_back nothrow vec (λ this, Tracer_move_ctor this temp);
    Tracer_dtor temp;;
    ret vec);
  vector_dtor vec.

Definition exercise_4_1 : M state unit :=
  scope (
    cout (nl +:+ "🚀 Exercise 4.1" +:+ nl);;
    t <- declare (λ this, createTracer this "temp");
    cout ("...end" +:+ nl)).

(** [Program_01_CopyMove::Run] *)
Definition Run (nrvo : bool) : M state unit :=
  exercise_1_1;;
  exercise_1_2;;
  exercise_2_1;;
  exercise_2_2 nrvo;;
  exercise_2_3;;
  exercise_2_4;;
  exercise_3_1;;
  exercise_4_1;;
  exercise_5_1;;
  exercise_6_1.

End TracerRun.

(** ** More of the string examples *)

Module StringsMore.
Import Strings.

(** A C string proper: no terminator inside. *)
Definition nul_free (d : string) : Prop := NUL ∉ list_ascii_of_string d.

(** What the constructors leave in the buffer for [d]. *)
Definition c_chars (d : string) : list ascii := list_ascii_of_string d ++ [NUL].

(** [{ NaiveString str1(d); NaiveString str2 = str1; }] *)
Definition naive_copy_scope (d : string) : M state unit :=
  str1 <- NaiveString_ctor d;
  let str2 := NaiveString_copy str1 in
  NaiveString_dtor str2;;
  NaiveString_dtor str1.

(** *** BetterString objects by address, for its assignment operator *)

Record ostate : Type := mkOState {
  objs : gmap positive BetterString;
  mem : state
}.

Definition on_mem {A} (m : M state A) : M ostate A :=
  λ s, match m (mem s) with
       | Ok (a, m') => Ok (a, {| objs := objs s; mem := m' |})
       | Fault f => Fault f
       end.

Definition get_obj (o : positive) : M ostate BetterString :=
  λ s, match objs s !! o with
       | Some b => Ok (b, s)
       | None => Fault (DeadObject o)
       end.

Definition set_data (o : positive) (p : option positive) : M ostate unit :=
  b <- get_obj o;
  modify (λ s, {| objs := <[o := {| b_data := p; b_size := b_size b |}]> (objs s);
                  mem := mem s |}).

Definition set_size (o : positive) (n : nat) : M ostate unit :=
  b <- get_obj o;
  modify (λ s, {| objs := <[o := {| b_data := b_data b; b_size := n |}]> (objs s);
                  mem := mem s |}).

(** [BetterString& operator=(const BetterString& other)]: the line is
    written before the self-assignment test. *)
Definition BetterString_copy_assign (this other : positive) : M ostate unit :=
  on_mem (cout ("Deep copy assignment called." +:+ nl));;
  if decide (this = other) then ret tt else
  t <- get_obj this;
  on_mem (delete_array (b_data t));;
  o <- get_obj other;
  set_size this (b_size o);;
  t <- get_obj this;
  a <- on_mem (new_char_array (b_size t));
  set_data this (Some a);;
  t <- get_obj this;
  o <- get_obj other;
  str <- on_mem (read_c_str (b_data o));
  on_mem (strcpy (b_data t) str).

End StringsMore.

(** ** The formatter of Person (03_custom_formatter_parse.h) *)

Module PersonFormat.

Record Person : Type := mkPerson {
  _id : N;
  _firstName : string;
  _lastName : string
}.

(** The specifiers [parse] knows. *)
Definition recognised (c : ascii) : bool :=
  bool_decide (c = "n"%char) || bool_decide (c = "L"%char) ||
  bool_decide (c = "f"%char) || bool_decide (c = "i"%char).

(** [char _presentation = 'n';] *)
Definition default_presentation : ascii := "n"%char.

(** [parse]: [context] is what is left of the format string from
    [context.begin()] on; the result is the new [_presentation] and what is
    left from the returned iterator on. *)
Definition parse (_presentation : ascii) (context : string) : ascii * string :=
  match context with
  | String c rest =>
      if recognised c then (c, rest) else (_presentation, context)
  | "" => (_presentation, context)
  end.

(** [format]: the text handed to [std::format_to]. *)
Definition format (_presentation : ascii) (person : Person) : string :=
  if bool_decide (_presentation = "n"%char) then
    _firstName person +:+ " " +:+ _lastName person
  else if bool_decide (_presentation = "L"%char) then
    _lastName person +:+ ", " +:+ _firstName person
  else if bool_decide (_presentation = "f"%char) then
    _firstName person +:+ " " +:+ _lastName person +:+ " (ID: "
      +:+ pretty (_id person) +:+ ")"
  else if bool_decide (_presentation = "i"%char) then
    pretty (_id person)
  else "".

End PersonFormat.

(** * Properties of Tracer *)

Module TracerProofs.
Import Tracer.

Ltac unfold_ops :=
  unfold Tracer_ctor, Tracer_dtor, Tracer_copy_ctor, Tracer_copy_assign,
    Tracer_move_ctor, Tracer_move_assign, get_name, get_resource, set_name,
    set_resource, begin_obj, end_obj, new_int, load, store, delete_int, cout,
    get_obj, bind, ret, modify, gets, lift, set_objs, set_heap, set_frame,
    moved_from_string, exec.

Ltac step :=
  first
    [ rewrite lookup_insert_eq
    | rewrite lookup_insert_ne by congruence
    | match goal with H : _ !! _ = _ |- _ => rewrite H end
    | match goal with H : resource _ = _ |- _ => rewrite H end
    | progress cbn ].

Lemma append_nil_l (x : string) : "" +:+ x = x.
Proof. reflexivity. Qed.

Lemma ctor_run s this n :
  Tracer_ctor this n s =
  Ok (tt, {| objs := <[this := {| name := n; resource := Some (fresh (dom (heap s))) |}]> (objs s);
             heap := <[fresh (dom (heap s)) := Live 42%Z]> (heap s);
             frame := frame s;
             out := out s ++ ["  " +:+ n +:+ ": Constructor" +:+ nl] |}).
Proof. unfold_ops. cbn. repeat step. done. Qed.

Lemma dtor_run s this t :
  objs s !! this = Some t →
  Tracer_dtor this s =
  match heap_delete (heap s) (resource t) with
  | Ok h => Ok (tt, {| objs := delete this (objs s); heap := h; frame := frame s;
                       out := out s ++ ["  " +:+ name t +:+ ": Destructor" +:+ nl] |})
  | Fault f => Fault f
  end.
Proof. intros Ht. unfold_ops. cbn. repeat step. by destruct (heap_delete _ _). Qed.

Lemma copy_ctor_run s this other o :
  objs s !! other = Some o →
  Tracer_copy_ctor this other s =
  match heap_load (heap s) (resource o) with
  | Ok v =>
     Ok (tt, {| objs := <[this := {| name := name o; resource := Some (fresh (dom (heap s))) |}]> (objs s);
             heap := <[fresh (dom (heap s)) := Live v]> (heap s);
             frame := frame s;
             out := out s ++ ["  " +:+ name o +:+ ": COPY Constructor from " +:+ name o +:+ nl] |})
  | Fault f => Fault f
  end.
Proof.
  intros Ho. unfold_ops. cbn. repeat step.
  destruct (heap_load _ _); [|done]. repeat step.
  destruct (decide (this = other)) as [->|]; repeat step; done.
Qed.

Lemma copy_assign_run s this other t o :
  this ≠ other → objs s !! this = Some t → objs s !! other = Some o →
  Tracer_copy_assign this other s =
  match heap_load (heap s) (resource o) with
  | Ok v =>
     let a := fresh (dom (heap s)) in
     match heap_delete (<[a := Live v]> (heap s)) (resource t) with
     | Ok h =>
       Ok (tt, {| objs := <[this := {| name := name o; resource := Some a |}]> (objs s);
             heap := h;
             frame := frame s;
             out := out s ++ ["  " +:+ name t +:+ ": COPY Assignment from " +:+ name o +:+ nl] |})
     | Fault f => Fault f
     end
  | Fault f => Fault f
  end.
Proof.
  intros Hne Ht Ho. unfold Tracer_copy_assign. rewrite decide_False by done.
  unfold_ops. cbn. repeat step.
  destruct (heap_load _ _); [|done]. repeat step.
  destruct (heap_delete _ _); [|done]. repeat step.
  by rewrite insert_insert_eq.
Qed.

Lemma move_ctor_run s this other o :
  this ≠ other → objs s !! other = Some o →
  Tracer_move_ctor this other s =
  Ok (tt, {| objs := <[other := {| name := name o +:+ " [moved]"; resource := None |}]>
                      (<[this := {| name := name o; resource := resource o |}]> (objs s));
             heap := heap s; frame := frame s;
             out := out s ++ ["  " +:+ name o +:+ ": MOVE Constructor from " +:+ name o +:+ nl] |}).
Proof.
  intros Hne Ho. unfold_ops. cbn. repeat step.
  rewrite append_nil_l. do 3 f_equal.
  apply map_eq; intros k.
  destruct (decide (k = other)) as [->|]; [by repeat step|].
  destruct (decide (k = this)) as [->|]; by repeat step.
Qed.

Lemma move_assign_run s this other t o :
  this ≠ other → objs s !! this = Some t → objs s !! other = Some o →
  Tracer_move_assign this other s =
  match heap_delete (heap s) (resource t) with
  | Ok h =>
    Ok (tt, {| objs := <[other := {| name := name o +:+ (name o +:+ " [moved]"); resource := None |}]>
                      (<[this := {| name := name o; resource := resource o |}]> (objs s));
             heap := h; frame := frame s;
             out := out s ++ ["  " +:+ name t +:+ ": MOVE Assignment from " +:+ name o +:+ nl] |})
  | Fault f => Fault f
  end.
Proof.
  intros Hne Ht Ho. unfold Tracer_move_assign. rewrite decide_False by done.
  unfold_ops. cbn. repeat step.
  destruct (heap_delete _ _); [|done]. repeat step.
  do 3 f_equal.
  apply map_eq; intros k.
  destruct (decide (k = other)) as [->|]; [by repeat step|].
  destruct (decide (k = this)) as [->|]; by repeat step.
Qed.

Lemma fresh_unused {V} (h : gmap positive (cell V)) : h !! fresh (dom h) = None.
Proof. apply not_elem_of_dom, is_fresh. Qed.

Lemma wf_init : wf init.
Proof. split; intros ? *; cbn; rewrite lookup_empty; done. Qed.

(* giving a fresh cell to [this] *)
Lemma wf_alloc s this n v fr ou :
  wf s →
  wf {| objs := <[this := {| name := n; resource := Some (fresh (dom (heap s))) |}]> (objs s);
        heap := <[fresh (dom (heap s)) := Live v]> (heap s);
        frame := fr; out := ou |}.
Proof.
  intros [HL HS]. pose proof (fresh_unused (heap s)) as Hf.
  split.
  - intros o t a; cbn. destruct (decide (o = this)) as [->|Hne].
    + rewrite lookup_insert_eq. intros [= <-] [= <-]; cbn.
      rewrite lookup_insert_eq. eauto.
    + rewrite lookup_insert_ne by done. intros Ho Hr.
      destruct (HL _ _ _ Ho Hr) as [w Hw].
      rewrite lookup_insert_ne by congruence. eauto.
  - intros o1 o2 t1 t2 a; cbn.
    destruct (decide (o1 = this)) as [->|H1], (decide (o2 = this)) as [->|H2];
      try done.
    + rewrite lookup_insert_eq, lookup_insert_ne by done.
      intros [= <-] Ho [= <-] Hr. destruct (HL _ _ _ Ho Hr); congruence.
    + rewrite lookup_insert_eq, lookup_insert_ne by done.
      intros Ho [= <-] Hr [= <-]. destruct (HL _ _ _ Ho Hr); congruence.
    + rewrite !lookup_insert_ne by done. eauto.
Qed.

(* ending the life of [this] and freeing what it owns *)
Lemma wf_release s this t h fr ou :
  wf s → objs s !! this = Some t → heap_delete (heap s) (resource t) = Ok h →
  wf {| objs := delete this (objs s); heap := h; frame := fr; out := ou |}.
Proof.
  intros [HL HS] Ht Hd. split.
  - intros o t' a; cbn. destruct (decide (o = this)) as [->|Hne].
    { by rewrite lookup_delete_eq. }
    rewrite lookup_delete_ne by done. intros Ho Hr.
    destruct (HL _ _ _ Ho Hr) as [w Hw].
    unfold heap_delete in Hd. destruct (resource t) as [b|] eqn:Hb.
    + destruct (heap s !! b) as [[|]|]; simplify_eq.
      assert (a ≠ b) by (intros ->; apply Hne; eauto).
      rewrite lookup_insert_ne by done. eauto.
    + simplify_eq. eauto.
  - intros o1 o2 t1 t2 a; cbn. intros H1 H2.
    apply lookup_delete_Some in H1 as [_ H1].
    apply lookup_delete_Some in H2 as [_ H2]. eauto.
Qed.

Lemma heap_delete_owned s o t :
  wf s → objs s !! o = Some t →
  heap_delete (heap s) (resource t) =
  Ok (match resource t with Some a => <[a := Freed]> (heap s) | None => heap s end).
Proof.
  intros [HL _] Ho. unfold heap_delete. destruct (resource t) as [a|] eqn:Hr; [|done].
  destruct (HL _ _ _ Ho Hr) as [v ->]. done.
Qed.

(* [this] takes over what [other] owned, after giving up its own cell *)
Lemma wf_transfer s this other t o n1 n2 h fr ou :
  wf s → this ≠ other → objs s !! other = Some o →
  (objs s !! this = Some t ∧ heap_delete (heap s) (resource t) = Ok h
   ∨ h = heap s) →
  wf {| objs := <[other := {| name := n2; resource := None |}]>
                  (<[this := {| name := n1; resource := resource o |}]> (objs s));
        heap := h; frame := fr; out := ou |}.
Proof.
  intros [HL HS] Hne Ho Hh.
  assert (Hlive : ∀ o' t' a, o' ≠ this → objs s !! o' = Some t' →
                             resource t' = Some a → ∃ v, h !! a = Some (Live v)).
  { intros o' t' a Hne' Ho' Hr. destruct (HL _ _ _ Ho' Hr) as [w Hw].
    destruct Hh as [[Ht Hd]| ->]; [|eauto].
    unfold heap_delete in Hd. destruct (resource t) as [b|] eqn:Hb; simplify_eq; [|eauto].
    destruct (heap s !! b) as [[|]|]; simplify_eq.
    rewrite lookup_insert_ne; [eauto|]. intros ->. apply Hne'. eauto. }
  split.
  - intros o' t' a; cbn. destruct (decide (o' = other)) as [->|H1].
    { rewrite lookup_insert_eq. by intros [= <-]. }
    rewrite lookup_insert_ne by done.
    destruct (decide (o' = this)) as [->|H2].
    + rewrite lookup_insert_eq. intros [= <-]; cbn. intros Hr.
      eapply (Hlive other); eauto.
    + rewrite lookup_insert_ne by done. eauto.
  - intros o1 o2 t1 t2 a; cbn.
    destruct (decide (o1 = other)) as [->|H1].
    { rewrite lookup_insert_eq. by intros [= <-]. }
    destruct (decide (o2 = other)) as [->|H2].
    { rewrite (lookup_insert_eq _ other). by intros _ [= <-]. }
    rewrite !(lookup_insert_ne _ other) by done.
    destruct (decide (o1 = this)) as [->|H3], (decide (o2 = this)) as [->|H4];
      try done.
    + rewrite lookup_insert_eq, lookup_insert_ne by done.
      intros [= <-] Ho2; cbn. intros Hr1 Hr2. destruct H2. eauto.
    + rewrite lookup_insert_eq, lookup_insert_ne by done.
      intros Ho1 [= <-]; cbn. intros Hr1 Hr2. destruct H1. eauto.
    + rewrite !lookup_insert_ne by done. eauto.
Qed.

Lemma move_ctor_self_run s o t :
  objs s !! o = Some t →
  Tracer_move_ctor o o s =
  Ok (tt, {| objs := <[o := {| name := name t +:+ " [moved]"; resource := None |}]> (objs s);
             heap := heap s; frame := frame s;
             out := out s ++ ["  " +:+ "" +:+ ": MOVE Constructor from " +:+ name t +:+ nl] |}).
Proof.
  intros Ho. unfold_ops. cbn. repeat step. rewrite append_nil_l.
  by rewrite !insert_insert_eq.
Qed.

Lemma wf_forget s o n fr ou :
  wf s →
  wf {| objs := <[o := {| name := n; resource := None |}]> (objs s);
        heap := heap s; frame := fr; out := ou |}.
Proof.
  intros [HL HS]. split.
  - intros o' t' a; cbn. destruct (decide (o' = o)) as [->|].
    + rewrite lookup_insert_eq. by intros [= <-].
    + rewrite lookup_insert_ne by done. eauto.
  - intros o1 o2 t1 t2 a; cbn.
    destruct (decide (o1 = o)) as [->|]; [rewrite lookup_insert_eq; by intros [= <-]|].
    destruct (decide (o2 = o)) as [->|]; [rewrite (lookup_insert_eq _ o); by intros _ [= <-]|].
    rewrite !lookup_insert_ne by done. eauto.
Qed.


(* copy assignment: a fresh cell replaces the one [this] owned *)
Lemma wf_replace s this t n v h fr ou :
  wf s → objs s !! this = Some t →
  heap_delete (<[fresh (dom (heap s)) := Live v]> (heap s)) (resource t) = Ok h →
  wf {| objs := <[this := {| name := n; resource := Some (fresh (dom (heap s))) |}]> (objs s);
        heap := h; frame := fr; out := ou |}.
Proof.
  intros [HL HS] Ht Hd. pose proof (fresh_unused (heap s)) as Hf.
  assert (Hh : ∀ a w, heap s !! a = Some (Live w) →
                      (∀ b, resource t = Some b → a ≠ b) →
                      h !! a = Some (Live w)).
  { intros a w Ha Hb. unfold heap_delete in Hd.
    destruct (resource t) as [b|]; simplify_eq.
    - destruct (_ !! b) as [[|]|]; simplify_eq.
      rewrite !lookup_insert_ne; [done|congruence|]. intros <-. by eapply Hb.
    - rewrite lookup_insert_ne; [done|congruence]. }
  assert (Hnew : h !! fresh (dom (heap s)) = Some (Live v)).
  { unfold heap_delete in Hd. destruct (resource t) as [b|] eqn:Hb; simplify_eq.
    - destruct (HL _ _ _ Ht Hb) as [w Hw].
      rewrite lookup_insert_ne in Hd by congruence. rewrite Hw in Hd.
      simplify_eq. rewrite lookup_insert_ne by congruence.
      by rewrite lookup_insert_eq.
    - by rewrite lookup_insert_eq. }
  split.
  - intros o' t' a; cbn. destruct (decide (o' = this)) as [->|Hne'].
    + rewrite lookup_insert_eq. intros [= <-] [= <-]. eauto.
    + rewrite lookup_insert_ne by done. intros Ho' Hr.
      destruct (HL _ _ _ Ho' Hr) as [w Hw]. exists w. apply Hh; [done|].
      intros b Hb ->. apply Hne'. eauto.
  - intros o1 o2 t1 t2 a; cbn.
    destruct (decide (o1 = this)) as [->|H1], (decide (o2 = this)) as [->|H2];
      try done.
    + rewrite lookup_insert_eq, lookup_insert_ne by done.
      intros [= <-] Ho2 [= <-] Hr. destruct (HL _ _ _ Ho2 Hr); congruence.
    + rewrite lookup_insert_eq, lookup_insert_ne by done.
      intros Ho1 [= <-] Hr [= <-]. destruct (HL _ _ _ Ho1 Hr); congruence.
    + rewrite !lookup_insert_ne by done. eauto.
Qed.

Lemma heap_load_owned s o t :
  wf s → objs s !! o = Some t →
  match resource t with
  | Some a => ∃ v, heap s !! a = Some (Live v) ∧ heap_load (heap s) (resource t) = Ok v
  | None => heap_load (heap s) (resource t) = Fault NullDeref
  end.
Proof.
  intros [HL _] Ho. destruct (resource t) as [a|] eqn:Hr; [|done].
  destruct (HL _ _ _ Ho Hr) as [v Hv]. exists v. cbn. by rewrite Hv.
Qed.

Lemma heap_delete_after_new s o t v :
  wf s → objs s !! o = Some t →
  heap_delete (<[fresh (dom (heap s)) := Live v]> (heap s)) (resource t) =
  Ok (match resource t with
      | Some a => <[a := Freed]> (<[fresh (dom (heap s)) := Live v]> (heap s))
      | None => <[fresh (dom (heap s)) := Live v]> (heap s)
      end).
Proof.
  intros [HL _] Ho. unfold heap_delete. destruct (resource t) as [a|] eqn:Hr; [|done].
  destruct (HL _ _ _ Ho Hr) as [w Hw]. pose proof (fresh_unused (heap s)).
  rewrite lookup_insert_ne by congruence. by rewrite Hw.
Qed.

Lemma dead_is_benign o : benign (DeadObject o).
Proof. right. eauto. Qed.
Local Hint Resolve dead_is_benign : core.

Lemma ctor_safe s this n : wf s → safe (exec (Tracer_ctor this n) s).
Proof. intros Hwf. unfold exec. rewrite ctor_run. by apply wf_alloc. Qed.

Lemma dtor_safe s this : wf s → safe (exec (Tracer_dtor this) s).
Proof.
  intros Hwf. unfold exec. destruct (objs s !! this) as [t|] eqn:Ht.
  - rewrite (dtor_run _ _ _ Ht), (heap_delete_owned _ _ _ Hwf Ht).
    eapply wf_release; eauto using heap_delete_owned.
  - unfold_ops. cbn. rewrite Ht. cbn. auto.
Qed.

Lemma copy_ctor_safe s this other :
  wf s → safe (exec (Tracer_copy_ctor this other) s).
Proof.
  intros Hwf. unfold exec. destruct (objs s !! other) as [o|] eqn:Ho.
  - rewrite (copy_ctor_run _ _ _ _ Ho).
    pose proof (heap_load_owned _ _ _ Hwf Ho) as Hl.
    destruct (resource o) as [a|].
    + destruct Hl as (v & _ & ->). by apply wf_alloc.
    + rewrite Hl. by left.
  - unfold_ops. cbn. rewrite Ho. cbn. auto.
Qed.

Lemma copy_assign_safe s this other :
  wf s → safe (exec (Tracer_copy_assign this other) s).
Proof.
  intros Hwf. unfold exec.
  destruct (decide (this = other)) as [->|Hne].
  { unfold Tracer_copy_assign. by rewrite decide_True by done. }
  destruct (objs s !! this) as [t|] eqn:Ht; cycle 1.
  { unfold Tracer_copy_assign. rewrite decide_False by done.
    unfold_ops. cbn. rewrite Ht. cbn. auto. }
  destruct (objs s !! other) as [o|] eqn:Ho; cycle 1.
  { unfold Tracer_copy_assign. rewrite decide_False by done.
    unfold_ops. cbn. rewrite Ht, Ho. cbn. auto. }
  rewrite (copy_assign_run _ _ _ _ _ Hne Ht Ho).
  pose proof (heap_load_owned _ _ _ Hwf Ho) as Hl.
  destruct (resource o) as [a|]; [|rewrite Hl; by left].
  destruct Hl as (v & _ & ->). cbn zeta.
  rewrite (heap_delete_after_new _ _ _ v Hwf Ht).
  eapply wf_replace; eauto using heap_delete_after_new.
Qed.

Lemma move_ctor_safe s this other :
  wf s → safe (exec (Tracer_move_ctor this other) s).
Proof.
  intros Hwf. unfold exec.
  destruct (objs s !! other) as [o|] eqn:Ho; cycle 1.
  { unfold_ops. cbn. rewrite Ho. cbn. auto. }
  destruct (decide (this = other)) as [->|Hne].
  - rewrite (move_ctor_self_run _ _ _ Ho). by apply wf_forget.
  - rewrite (move_ctor_run _ _ _ _ Hne Ho).
    eapply (wf_transfer _ _ _ o); eauto.
Qed.

Lemma move_assign_safe s this other :
  wf s → safe (exec (Tracer_move_assign this other) s).
Proof.
  intros Hwf. unfold exec.
  destruct (decide (this = other)) as [->|Hne].
  { unfold Tracer_move_assign. by rewrite decide_True by done. }
  destruct (objs s !! other) as [o|] eqn:Ho; cycle 1.
  { unfold Tracer_move_assign. rewrite decide_False by done.
    unfold_ops. cbn. rewrite Ho. cbn. auto. }
  destruct (objs s !! this) as [t|] eqn:Ht; cycle 1.
  { unfold Tracer_move_assign. rewrite decide_False by done.
    unfold_ops. cbn. rewrite Ho, Ht. cbn. auto. }
  rewrite (move_assign_run _ _ _ _ _ Hne Ht Ho), (heap_delete_owned _ _ _ Hwf Ht).
  eapply (wf_transfer _ _ _ t o); eauto using heap_delete_owned.
Qed.

Lemma run_op_safe s o : wf s → safe (exec (run_op o) s).
Proof.
  destruct o; cbn;
    eauto using ctor_safe, dtor_safe, copy_ctor_safe, copy_assign_safe,
      move_ctor_safe, move_assign_safe.
Qed.

Lemma exec_seq {A} (m : M state A) (k : M state unit) s :
  exec (m;; k) s =
  match exec m s with Ok s1 => exec k s1 | Fault f => Fault f end.
Proof. unfold exec, bind. by destruct (m s) as [[? ?]|]. Qed.

Lemma run_ops_safe ops : ∀ s, wf s → safe (exec (run_ops ops) s).
Proof.
  induction ops as [|o ops IH]; intros s Hwf; [done|].
  cbn [run_ops]. rewrite exec_seq.
  pose proof (run_op_safe s o Hwf) as Ho.
  destruct (exec (run_op o) s); cbn in *; eauto.
Qed.

(** Well-formedness only looks at the objects and the heap. *)
Lemma wf_ext s1 s2 : objs s1 = objs s2 → heap s1 = heap s2 → wf s1 → wf s2.
Proof.
  intros Ho Hh [HL HS]. split.
  - intros o t a. rewrite <- Ho, <- Hh. apply HL.
  - intros o1 o2 t1 t2 a. rewrite <- Ho. apply HS.
Qed.

(** A state built by a program from the empty state is well-formed. *)
Lemma wf_built ops s s' :
  exec (run_ops ops) init = Ok s' → objs s' = objs s → heap s' = heap s → wf s.
Proof.
  intros Hrun Ho Hh. apply (wf_ext s'); [done..|].
  pose proof (run_ops_safe ops init wf_init) as Hs. by rewrite Hrun in Hs.
Qed.

(** C2.  Single owner.  In a state where every live Tracer owns a live cell
    and no cell has two owners: a move construction or a move assignment
    from another Tracer succeeds, keeps that invariant and leaves the source
    with the null resource while the target holds what the source held; the
    destructor of a Tracer succeeds, frees nothing when the resource is null
    and otherwise frees exactly the one live cell the Tracer owns; and no
    program over the six special member functions breaks the invariant or
    frees a cell twice. *)
Theorem single_owner_invariant (s : state) :
  wf s →
  (∀ this other o, this ≠ other → objs s !! other = Some o →
     ∃ s', exec (Tracer_move_ctor this other) s = Ok s' ∧ wf s' ∧
           resource <$> objs s' !! other = Some None ∧
           resource <$> objs s' !! this = Some (resource o) ∧
           heap s' = heap s) ∧
  (∀ this other t o, this ≠ other →
     objs s !! this = Some t → objs s !! other = Some o →
     ∃ s', exec (Tracer_move_assign this other) s = Ok s' ∧ wf s' ∧
           resource <$> objs s' !! other = Some None ∧
           resource <$> objs s' !! this = Some (resource o)) ∧
  (∀ this t, objs s !! this = Some t →
     ∃ s', exec (Tracer_dtor this) s = Ok s' ∧ wf s' ∧
           objs s' !! this = None ∧
           match resource t with
           | None => heap s' = heap s
           | Some a => (∃ v, heap s !! a = Some (Live v)) ∧
                       heap s' = <[a := Freed]> (heap s)
           end) ∧
  (∀ ops, safe (exec (run_ops ops) s) ∧
          ∀ a, exec (run_ops ops) s ≠ Fault (DoubleFree a)).
Proof.
  intros Hwf. repeat split.
  - intros this other o Hne Ho.
    pose proof (move_ctor_safe s this other Hwf) as Hs. unfold exec in *.
    rewrite (move_ctor_run _ _ _ _ Hne Ho) in *. eexists; split; [done|].
    split; [done|]. cbn. rewrite lookup_insert_eq.
    rewrite lookup_insert_ne, lookup_insert_eq by done. done.
  - intros this other t o Hne Ht Ho.
    pose proof (move_assign_safe s this other Hwf) as Hs. unfold exec in *.
    rewrite (move_assign_run _ _ _ _ _ Hne Ht Ho),
      (heap_delete_owned _ _ _ Hwf Ht) in *.
    eexists; split; [done|]. split; [done|]. cbn. rewrite lookup_insert_eq.
    rewrite lookup_insert_ne, lookup_insert_eq by done. done.
  - intros this t Ht.
    pose proof (dtor_safe s this Hwf) as Hs. unfold exec in *.
    rewrite (dtor_run _ _ _ Ht), (heap_delete_owned _ _ _ Hwf Ht) in *.
    eexists; split; [done|]. split; [done|]. cbn. rewrite lookup_delete_eq.
    split; [done|]. destruct (resource t) as [a|] eqn:Hr; [|done].
    split; [|done]. destruct Hwf as [HL _]. eauto.
  - by apply run_ops_safe.
  - intros a Hf. pose proof (run_ops_safe ops s Hwf) as Hs.
    rewrite Hf in Hs. destruct Hs as [|[? ?]]; done.
Qed.


(** *** Copying from a moved-from object *)

Lemma copy_ctor_of_null s this other o :
  objs s !! other = Some o → resource o = None →
  Tracer_copy_ctor this other s = Fault NullDeref.
Proof. intros Ho Hr. rewrite (copy_ctor_run _ _ _ _ Ho), Hr. done. Qed.

Lemma copy_assign_of_null s this other t o :
  this ≠ other → objs s !! this = Some t → objs s !! other = Some o →
  resource o = None →
  Tracer_copy_assign this other s = Fault NullDeref.
Proof.
  intros Hne Ht Ho Hr. rewrite (copy_assign_run _ _ _ _ _ Hne Ht Ho), Hr. done.
Qed.

(** C1.  Copying from a moved-from Tracer is not well-defined in this code:
    after [Tracer t1("t1"); Tracer t4 = std::move(t1);] the resource of [t1]
    is the null pointer, and both the copy constructor ([Tracer c = t1;]) and
    the copy assignment ([t3 = t1;]) dereference it.  The run stops with a
    null dereference instead of producing a copy. *)
Theorem copy_from_moved_from_faults :
  exec (run_ops [Construct 1 "t1"; MoveConstruct 2 1; CopyConstruct 3 1]) init
    = Fault NullDeref ∧
  exec (run_ops [Construct 1 "t1"; Construct 3 "t3"; MoveConstruct 2 1;
                 CopyAssign 3 1]) init
    = Fault NullDeref.
Proof. split; vm_compute; reflexivity. Qed.

(** *** The name of a moved-from object *)

Lemma moved_from_name_after_move_ctor s this other o :
  this ≠ other → objs s !! other = Some o →
  ∃ s', exec (Tracer_move_ctor this other) s = Ok s' ∧
        name_of s' other = name o +:+ " [moved]" ∧
        name_of s' this = name o.
Proof.
  intros Hne Ho. unfold exec. rewrite (move_ctor_run _ _ _ _ Hne Ho).
  eexists; split; [done|]. unfold name_of; cbn.
  rewrite lookup_insert_eq, lookup_insert_ne, lookup_insert_eq by done. done.
Qed.

Lemma moved_from_name_after_move_assign s this other t o :
  this ≠ other → objs s !! this = Some t → objs s !! other = Some o →
  wf s →
  ∃ s', exec (Tracer_move_assign this other) s = Ok s' ∧
        name_of s' other = name o +:+ (name o +:+ " [moved]") ∧
        name_of s' this = name o.
Proof.
  intros Hne Ht Ho Hwf. unfold exec.
  rewrite (move_assign_run _ _ _ _ _ Hne Ht Ho), (heap_delete_owned _ _ _ Hwf Ht).
  eexists; split; [done|]. unfold name_of; cbn.
  rewrite lookup_insert_eq, lookup_insert_ne, lookup_insert_eq by done. done.
Qed.

(** C3.  The name of the source after a move assignment.  In exercise 5.1
    ([Tracer a("Alice"); Tracer b("Bob"); a = std::move(b);]) the name of [b]
    ends up as "BobBob [moved]": the original name twice, then the tag.  It
    is not the original name with the tag appended ("Bob [moved]"). *)
Theorem move_assign_source_name :
  ∃ s', exec (run_ops [Construct 1 "Alice"; Construct 2 "Bob"; MoveAssign 1 2])
          init = Ok s' ∧
        name_of s' 1 = "Bob" ∧
        name_of s' 2 = "BobBob [moved]" ∧
        name_of s' 2 ≠ "Bob" +:+ " [moved]".
Proof. eexists. split; [vm_compute; reflexivity|]. by vm_compute. Qed.

(** *** Self-assignment *)

(** C5.  Self-assignment.  Copy-assigning or move-assigning a Tracer to
    itself returns at the guard with the whole state unchanged: same name and
    resource, no cell freed, no cell allocated, nothing written to the
    trace. *)
Theorem self_assignment_identity (s : state) (a : positive) :
  Tracer_copy_assign a a s = Ok (tt, s) ∧
  Tracer_move_assign a a s = Ok (tt, s).
Proof.
  unfold Tracer_copy_assign, Tracer_move_assign.
  rewrite !decide_True by done. done.
Qed.

(** *** Deep copy *)

Lemma write_resource_run s o t a v w :
  objs s !! o = Some t → resource t = Some a → heap s !! a = Some (Live v) →
  write_resource o w s = Ok (tt, set_heap (<[a := Live w]> (heap s)) s).
Proof.
  intros Ho Hr Ha. unfold write_resource. unfold_ops. cbn.
  rewrite Ho; cbn. rewrite Hr; cbn. by rewrite Ha.
Qed.

Lemma write_all_frame o t q ws :
  resource t = Some q →
  ∀ s v, objs s !! o = Some t → heap s !! q = Some (Live v) →
    ∃ s', exec (write_all o ws) s = Ok s' ∧ objs s' = objs s ∧
          out s' = out s ∧
          ∀ p, p ≠ q → heap s' !! p = heap s !! p.
Proof.
  intros Hr. induction ws as [|w ws IH]; intros s v Ho Hq.
  { exists s. done. }
  cbn [write_all]. rewrite exec_seq.
  replace (exec (write_resource o w) s)
    with (Ok (set_heap (<[q := Live w]> (heap s)) s))
    by (unfold exec; by rewrite (write_resource_run _ _ _ _ _ w Ho Hr Hq)).
  destruct (IH (set_heap (<[q := Live w]> (heap s)) s) w) as (s' & Hs' & Hobjs & Hout & Hh).
  { done. }
  { cbn. by rewrite lookup_insert_eq. }
  exists s'. split; [done|]. split; [done|]. split; [done|].
  intros p Hp. rewrite Hh by done. cbn. by rewrite lookup_insert_ne.
Qed.

(** C6.  Deep copy.  Copy-constructing [c] from a distinct Tracer [a] that
    owns the live cell [p] holding [v] succeeds; [c] gets the name of [a] and
    a cell [q] that was not allocated before, differs from [p] and holds [v];
    [a] and its cell are untouched, and they stay untouched by any sequence
    of writes through the resource of [c]. *)
Theorem deep_copy_independence (s : state) (a c : positive) (ta : Tracer)
    (p : positive) (v : Z) :
  c ≠ a → objs s !! a = Some ta → resource ta = Some p →
  heap s !! p = Some (Live v) →
  ∃ s' q,
    exec (Tracer_copy_ctor c a) s = Ok s' ∧
    objs s' !! c = Some {| name := name ta; resource := Some q |} ∧
    q ≠ p ∧ heap s !! q = None ∧ heap s' !! q = Some (Live v) ∧
    objs s' !! a = Some ta ∧ heap s' !! p = Some (Live v) ∧
    ∀ ws, ∃ s'', exec (write_all c ws) s' = Ok s'' ∧
                 objs s'' !! a = Some ta ∧ heap s'' !! p = Some (Live v).
Proof.
  intros Hne Ha Hr Hp. pose proof (fresh_unused (heap s)) as Hf.
  assert (Hq : fresh (dom (heap s)) ≠ p) by congruence.
  set (s' := {| objs := <[c := {| name := name ta;
                                  resource := Some (fresh (dom (heap s))) |}]> (objs s);
                heap := <[fresh (dom (heap s)) := Live v]> (heap s);
                frame := frame s;
                out := out s ++ ["  " +:+ name ta +:+ ": COPY Constructor from "
                                 +:+ name ta +:+ nl] |}).
  exists s', (fresh (dom (heap s))).
  assert (Hc : objs s' !! c = Some {| name := name ta;
                 resource := Some (fresh (dom (heap s))) |})
    by (cbn; by rewrite lookup_insert_eq).
  assert (Ha' : objs s' !! a = Some ta) by (cbn; by rewrite lookup_insert_ne).
  assert (Hp' : heap s' !! p = Some (Live v)) by (cbn; by rewrite lookup_insert_ne).
  assert (Hq' : heap s' !! fresh (dom (heap s)) = Some (Live v))
    by (cbn; by rewrite lookup_insert_eq).
  split.
  { unfold exec. rewrite (copy_ctor_run _ _ _ _ Ha), Hr. cbn. by rewrite Hp. }
  repeat (split; [done|]).
  intros ws.
  destruct (write_all_frame c
              {| name := name ta; resource := Some (fresh (dom (heap s))) |}
              (fresh (dom (heap s))) ws eq_refl s' v Hc Hq')
    as (s'' & Hrun & Hobjs & _ & Hh).
  exists s''. split; [done|]. rewrite Hobjs, Hh by done. done.
Qed.

(** *** Scope exit *)

Lemma name_of_delete s o o' h fr ou :
  o' ≠ o →
  name_of {| objs := delete o (objs s); heap := h; frame := fr; out := ou |} o'
  = name_of s o'.
Proof. intros Hne. unfold name_of; cbn. by rewrite lookup_delete_ne. Qed.

Lemma exec_dtor s o t :
  wf s → objs s !! o = Some t →
  exec (Tracer_dtor o) s =
  Ok {| objs := delete o (objs s);
        heap := match resource t with
                | Some a => <[a := Freed]> (heap s)
                | None => heap s
                end;
        frame := frame s;
        out := out s ++ [dtor_line (name t)] |}.
Proof.
  intros Hwf Ht. unfold exec.
  by rewrite (dtor_run _ _ _ Ht), (heap_delete_owned _ _ _ Hwf Ht).
Qed.

Lemma destroy_all_trace l :
  ∀ s, wf s → NoDup l → Forall (λ o, is_Some (objs s !! o)) l →
    ∃ s', exec (destroy_all l) s = Ok s' ∧ wf s' ∧
          out s' = out s ++ map (λ o, dtor_line (name_of s o)) l ∧
          frame s' = frame s ∧
          (∀ o, o ∈ l → objs s' !! o = None) ∧
          (∀ o, objs s !! o = None → objs s' !! o = None).
Proof.
  induction l as [|o l IH]; intros s Hwf Hnd Hlive.
  { exists s. rewrite app_nil_r. do 4 (split; [done|]).
    split; [|done]. intros o Ho. by apply elem_of_nil in Ho. }
  apply NoDup_cons in Hnd as [Hnotin Hnd].
  apply Forall_cons in Hlive as [[t Ht] Hlive].
  cbn [destroy_all]. rewrite exec_seq, (exec_dtor _ _ _ Hwf Ht).
  set (s1 := {| objs := delete o (objs s) |}).
  destruct (IH s1) as (s' & Hrun & Hwf' & Hout & Hfr & Hdead & Hkeep).
  { eapply wf_release; eauto using heap_delete_owned. }
  { done. }
  { rewrite Forall_forall in Hlive |- *. intros o' Ho'. cbn.
    rewrite lookup_delete_ne by (intros ->; done). by apply Hlive. }
  exists s'. split; [done|]. split; [done|]. split; [|split; [done|split]].
  - rewrite Hout. cbn. rewrite <- app_assoc. cbn. f_equal.
    unfold name_of at 2. rewrite Ht. f_equal.
    apply map_ext_in. intros o' Ho'. f_equal. unfold s1.
    apply name_of_delete. intros ->. by apply Hnotin, list_elem_of_In.
  - intros o' [->|Ho']%elem_of_cons; [|by apply Hdead].
    apply Hkeep. cbn. apply lookup_delete_eq.
  - intros o' Ho'. apply Hkeep. cbn.
    destruct (decide (o' = o)) as [->|]; [apply lookup_delete_eq|].
    by rewrite lookup_delete_ne.
Qed.

Lemma declare_extends_order construct s this s' :
  (∀ o s1 s2, exec (construct o) s1 = Ok s2 → frame s2 = frame s1) →
  declare construct s = Ok (this, s') →
  declaration_order s' = declaration_order s ++ [this].
Proof.
  intros Hframe. unfold declare, fresh_obj, bind, gets, modify, ret.
  destruct (construct _ s) as [[[] s1]|] eqn:Hc; [|done].
  intros [= <- <-]. unfold declaration_order; cbn. f_equal.
  f_equal. apply (Hframe (fresh (dom (objs s))) s). unfold exec. by rewrite Hc.
Qed.

Import TracerScopes.

Lemma scope_run {A} (body : M state A) (s s1 : state) (a : A) :
  body (set_frame [] s) = Ok (a, s1) →
  wf s1 → NoDup (frame s1) → Forall (λ o, is_Some (objs s1 !! o)) (frame s1) →
  ∃ s2, scope body s = Ok (a, set_frame (frame s) s2) ∧
        exec (destroy_all (frame s1)) s1 = Ok s2 ∧
        out s2 = out s1 ++
                 map (λ o, dtor_line (name_of s1 o)) (rev (declaration_order s1)) ∧
        ∀ o, o ∈ declaration_order s1 → objs s2 !! o = None.
Proof.
  intros Hbody Hwf Hnd Hlive.
  destruct (destroy_all_trace (frame s1) s1 Hwf Hnd Hlive)
    as (s2 & Hrun & _ & Hout & _ & Hdead & _).
  exists s2. split; [|split; [done|split]].
  - unfold scope, leave_scope, bind, gets, modify, ret. rewrite Hbody.
    unfold exec in Hrun.
    destruct (destroy_all (frame s1) s1) as [[[] ?]|]; by simplify_eq.
  - unfold declaration_order. by rewrite rev_involutive.
  - intros o Ho. apply Hdead.
    apply list_elem_of_In, in_rev. by apply list_elem_of_In.
Qed.

Lemma declare_ctor s n :
  ∃ this s',
    declare (λ this, Tracer_ctor this n) s = Ok (this, s') ∧
    objs s !! this = None ∧ is_Some (objs s' !! this) ∧
    out s' = out s ++ ["  " +:+ n +:+ ": Constructor" +:+ nl] ∧
    declaration_order s' = declaration_order s ++ [this].
Proof.
  eexists _, _. split.
  { unfold declare, fresh_obj, bind, gets, modify, ret. rewrite ctor_run.
    reflexivity. }
  split; [apply not_elem_of_dom, is_fresh|]. cbn.
  split; [rewrite lookup_insert_eq; eauto|]. done.
Qed.

Lemma declare_copy_ctor s other o :
  wf s → objs s !! other = Some o → resource o ≠ None →
  ∃ this s',
    declare (λ this, Tracer_copy_ctor this other) s = Ok (this, s') ∧
    objs s !! this = None ∧ is_Some (objs s' !! this) ∧
    out s' = out s ++ ["  " +:+ name o +:+ ": COPY Constructor from "
                        +:+ name o +:+ nl] ∧
    declaration_order s' = declaration_order s ++ [this].
Proof.
  intros Hwf Ho Hr. pose proof (heap_load_owned _ _ _ Hwf Ho) as Hl.
  destruct (resource o) as [p|] eqn:Hp; [|done]. destruct Hl as (v & _ & Hload).
  eexists _, _. split.
  { unfold declare, fresh_obj, bind, gets, modify, ret.
    rewrite (copy_ctor_run _ _ _ _ Ho), Hp, Hload. reflexivity. }
  split; [apply not_elem_of_dom, is_fresh|]. cbn.
  split; [rewrite lookup_insert_eq; eauto|]. done.
Qed.

Lemma declare_move_ctor s other o :
  objs s !! other = Some o →
  ∃ this s',
    declare (λ this, Tracer_move_ctor this other) s = Ok (this, s') ∧
    objs s !! this = None ∧ is_Some (objs s' !! this) ∧
    out s' = out s ++ ["  " +:+ name o +:+ ": MOVE Constructor from "
                        +:+ name o +:+ nl] ∧
    declaration_order s' = declaration_order s ++ [this].
Proof.
  intros Ho.
  assert (Hdead : objs s !! fresh (dom (objs s)) = None)
    by apply not_elem_of_dom, is_fresh.
  assert (Hne : fresh (dom (objs s)) ≠ other) by congruence.
  eexists _, _. split.
  { unfold declare, fresh_obj, bind, gets, modify, ret.
    rewrite (move_ctor_run _ _ _ _ Hne Ho). reflexivity. }
  split; [done|]. cbn.
  split; [rewrite lookup_insert_ne, lookup_insert_eq by done; eauto|]. done.
Qed.

Ltac run_scope_account :=
  unfold destroyed_in_reverse;
  eexists _, _, _, _, _, _, _, _;
  repeat (split; [first [ vm_compute; reflexivity
                        | discriminate
                        | eexists; vm_compute; reflexivity ]|]);
  vm_compute; reflexivity.

(** C8.  Destructor order in the scopes of the harness.

    The closing brace: whenever the body of a scope has run and its
    automatic Tracers are alive and pairwise distinct, the scope destroys
    them, writing one Destructor line per object in the reverse of the
    order of declaration, and none of them is alive afterwards.  A
    declaration, by the plain, the copy or the move constructor, writes its
    construction line and puts its new object at the end of the order of
    declaration.  And each scope of the harness that declares more than one
    Tracer (exercises 1.1, 1.2, 2.3 and 5.1) runs like this: the two
    construction lines are written in the order of the declarations; at
    the closing brace the destructor of the second object runs first,
    writes its line and ends that object while the first is still alive;
    then the destructor of the first object runs. *)
Theorem destructors_reverse_construction :
  (∀ (A : Type) (body : M state A) (s s1 : state) (a : A),
     body (set_frame [] s) = Ok (a, s1) →
     wf s1 → NoDup (frame s1) →
     Forall (λ o, is_Some (objs s1 !! o)) (frame s1) →
     ∃ s2, scope body s = Ok (a, set_frame (frame s) s2) ∧
           exec (destroy_all (frame s1)) s1 = Ok s2 ∧
           out s2 = out s1 ++
                    map (λ o, dtor_line (name_of s1 o))
                        (rev (declaration_order s1)) ∧
           ∀ o, o ∈ declaration_order s1 → objs s2 !! o = None) ∧
  (∀ s n, ∃ this s',
     declare (λ this, Tracer_ctor this n) s = Ok (this, s') ∧
     objs s !! this = None ∧ is_Some (objs s' !! this) ∧
     out s' = out s ++ ["  " +:+ n +:+ ": Constructor" +:+ nl] ∧
     declaration_order s' = declaration_order s ++ [this]) ∧
  (∀ s other o, wf s → objs s !! other = Some o → resource o ≠ None →
     ∃ this s',
       declare (λ this, Tracer_copy_ctor this other) s = Ok (this, s') ∧
       objs s !! this = None ∧ is_Some (objs s' !! this) ∧
       out s' = out s ++ ["  " +:+ name o +:+ ": COPY Constructor from "
                           +:+ name o +:+ nl] ∧
       declaration_order s' = declaration_order s ++ [this]) ∧
  (∀ s other o, objs s !! other = Some o →
     ∃ this s',
       declare (λ this, Tracer_move_ctor this other) s = Ok (this, s') ∧
       objs s !! this = None ∧ is_Some (objs s' !! this) ∧
       out s' = out s ++ ["  " +:+ name o +:+ ": MOVE Constructor from "
                           +:+ name o +:+ nl] ∧
       declaration_order s' = declaration_order s ++ [this]) ∧
  (exercise_1_1 =
     two_declarations
       (cout (nl +:+ "🚀 Exercise 1.1" +:+ nl))
       (λ this, Tracer_ctor this "t1")
       (λ t1 this, Tracer_copy_ctor this t1)
       (λ _ _, cout ("...end of scope" +:+ nl)) ∧
   destroyed_in_reverse
     (cout (nl +:+ "🚀 Exercise 1.1" +:+ nl))
     (λ this, Tracer_ctor this "t1")
     (λ t1 this, Tracer_copy_ctor this t1)
     (λ _ _, cout ("...end of scope" +:+ nl))
     ("  t1: Constructor" +:+ nl)
     ("  t1: COPY Constructor from t1" +:+ nl)
     ("  t1: Destructor" +:+ nl)
     ("  t1: Destructor" +:+ nl)) ∧
  (exercise_1_2 =
     two_declarations
       (cout (nl +:+ "🚀 Exercise 1.2" +:+ nl))
       (λ this, Tracer_ctor this "t1")
       (λ _ this, Tracer_ctor this "t2")
       (λ t1 t2, Tracer_copy_assign t2 t1;;
                 cout ("...end of scope" +:+ nl)) ∧
   destroyed_in_reverse
     (cout (nl +:+ "🚀 Exercise 1.2" +:+ nl))
     (λ this, Tracer_ctor this "t1")
     (λ _ this, Tracer_ctor this "t2")
     (λ t1 t2, Tracer_copy_assign t2 t1;;
               cout ("...end of scope" +:+ nl))
     ("  t1: Constructor" +:+ nl)
     ("  t2: Constructor" +:+ nl)
     ("  t1: Destructor" +:+ nl)
     ("  t1: Destructor" +:+ nl)) ∧
  (exercise_2_3 =
     two_declarations
       (cout (nl +:+ "🚀 Exercise 2.3" +:+ nl))
       (λ this, Tracer_ctor this "t1")
       (λ t1 this, Tracer_move_ctor this t1)
       (λ t1 _, n1 <- get_name t1;
                cout ("State of t1: name = '" +:+ n1 +:+ "'" +:+ nl)) ∧
   destroyed_in_reverse
     (cout (nl +:+ "🚀 Exercise 2.3" +:+ nl))
     (λ this, Tracer_ctor this "t1")
     (λ t1 this, Tracer_move_ctor this t1)
     (λ t1 _, n1 <- get_name t1;
              cout ("State of t1: name = '" +:+ n1 +:+ "'" +:+ nl))
     ("  t1: Constructor" +:+ nl)
     ("  t1: MOVE Constructor from t1" +:+ nl)
     ("  t1: Destructor" +:+ nl)
     ("  t1 [moved]: Destructor" +:+ nl)) ∧
  (exercise_5_1 =
     two_declarations
       (cout (nl +:+ "🚀 Exercise 5.1" +:+ nl))
       (λ this, Tracer_ctor this "Alice")
       (λ _ this, Tracer_ctor this "Bob")
       (λ a b, na <- get_name a;
               nb <- get_name b;
               cout ("Before move: a = " +:+ na +:+ ", b = " +:+ nb +:+ nl);;
               Tracer_move_assign a b;;
               na <- get_name a;
               nb <- get_name b;
               cout ("After move:  a = " +:+ na +:+ ", b = " +:+ nb +:+ nl)) ∧
   destroyed_in_reverse
     (cout (nl +:+ "🚀 Exercise 5.1" +:+ nl))
     (λ this, Tracer_ctor this "Alice")
     (λ _ this, Tracer_ctor this "Bob")
     (λ a b, na <- get_name a;
             nb <- get_name b;
             cout ("Before move: a = " +:+ na +:+ ", b = " +:+ nb +:+ nl);;
             Tracer_move_assign a b;;
             na <- get_name a;
             nb <- get_name b;
             cout ("After move:  a = " +:+ na +:+ ", b = " +:+ nb +:+ nl))
     ("  Alice: Constructor" +:+ nl)
     ("  Bob: Constructor" +:+ nl)
     ("  BobBob [moved]: Destructor" +:+ nl)
     ("  Bob: Destructor" +:+ nl)).
Proof.
  split; [intros A body s s1 a; apply scope_run|].
  split; [exact declare_ctor|].
  split; [exact declare_copy_ctor|].
  split; [exact declare_move_ctor|].
  split; [split; [reflexivity|run_scope_account]|].
  split; [split; [reflexivity|run_scope_account]|].
  split; [split; [reflexivity|run_scope_account]|].
  split; [reflexivity|run_scope_account].
Qed.

Lemma wf_alice_and_bob : wf alice_and_bob.
Proof.
  apply (wf_built [Construct 1 "Alice"; Construct 2 "Bob"] _
           (built [Construct 1 "Alice"; Construct 2 "Bob"])); reflexivity.
Qed.

(** C2 on exercise 5.1: [a = std::move(b)] after the two declarations. *)
Lemma single_owner_invariant_witness :
  wf alice_and_bob ∧
  ∃ s', exec (Tracer_move_assign 1 2) alice_and_bob = Ok s' ∧ wf s' ∧
        resource <$> objs s' !! 2%positive = Some None ∧
        resource <$> objs s' !! 1%positive = Some (Some 2%positive).
Proof.
  split; [exact wf_alice_and_bob|].
  destruct (single_owner_invariant alice_and_bob wf_alice_and_bob)
    as (_ & Hassign & _).
  apply (Hassign 1%positive 2%positive
           {| name := "Alice"; resource := Some 1%positive |}
           {| name := "Bob"; resource := Some 2%positive |});
    [discriminate | reflexivity | reflexivity].
Defined.

(** C6 on a copy of [a] into a third object. *)
Lemma deep_copy_independence_witness :
  ∃ s' q,
    exec (Tracer_copy_ctor 3 1) alice_and_bob = Ok s' ∧
    objs s' !! 3%positive = Some {| name := "Alice"; resource := Some q |} ∧
    q ≠ 1%positive ∧ heap alice_and_bob !! q = None ∧
    heap s' !! q = Some (Live 42%Z) ∧
    objs s' !! 1%positive = Some {| name := "Alice"; resource := Some 1%positive |} ∧
    heap s' !! 1%positive = Some (Live 42%Z) ∧
    ∀ ws, ∃ s'', exec (write_all 3 ws) s' = Ok s'' ∧
                 objs s'' !! 1%positive
                   = Some {| name := "Alice"; resource := Some 1%positive |} ∧
                 heap s'' !! 1%positive = Some (Live 42%Z).
Proof.
  apply (deep_copy_independence alice_and_bob 1 3
           {| name := "Alice"; resource := Some 1%positive |} 1 42);
    [discriminate | reflexivity | reflexivity | reflexivity].
Defined.

(** C8 on the two declarations of exercise 5.1: [b] dies first. *)
Lemma destructors_reverse_construction_witness :
  ∃ s2,
    scope (declare (λ this, Tracer_ctor this "Alice");;
           declare (λ this, Tracer_ctor this "Bob")) init
      = Ok (2%positive, set_frame [] s2) ∧
    out s2 = out alice_and_bob ++ [dtor_line "Bob"; dtor_line "Alice"].
Proof.
  destruct destructors_reverse_construction as [Hscope _].
  destruct (Hscope positive
              (declare (λ this, Tracer_ctor this "Alice");;
               declare (λ this, Tracer_ctor this "Bob"))
              init alice_and_bob 2%positive)
    as (s2 & Hrun & _ & Hout & _).
  - reflexivity.
  - exact wf_alice_and_bob.
  - apply (bool_decide_unpack _). vm_compute. exact I.
  - repeat constructor; eexists; reflexivity.
  - exists s2. split; [exact Hrun|exact Hout].
Defined.

(** *** The wording of the trace lines *)

(** Against C4 as stated: the copy constructor of 01_rule_of_five.h does not
    write the line of the specification.  For
    [Tracer t1("t1"); Tracer t2 = t1;] the entry is
    "  t1: COPY Constructor from t1". *)
Lemma copy_ctor_line_counterexample :
  ∃ s1 s2 line,
    exec (Tracer_ctor 1 "t1") init = Ok s1 ∧
    exec (Tracer_copy_ctor 2 1) s1 = Ok s2 ∧
    out s2 = out s1 ++ [line] ∧
    line = "  t1: COPY Constructor from t1" +:+ nl ∧
    mentions (spec_copy_ctor_line "t1" "t1") line = false.
Proof.
  eexists _, _, _. split; [vm_compute; reflexivity|].
  split; [vm_compute; reflexivity|]. by vm_compute.
Qed.

Lemma name_tracer_copy_ctor_run (s : NameTracer.state) this other n :
  NameTracer.objs s !! other = Some n →
  exec (NameTracer.Tracer_copy_ctor this other) s =
  Ok {| NameTracer.objs := <[this := n]> (NameTracer.objs s);
        NameTracer.out := NameTracer.out s ++
          ["  " +:+ n +:+ ": COPY CONSTRUCTOR from " +:+ n +:+ nl] |}.
Proof.
  intros Ho.
  unfold exec, NameTracer.Tracer_copy_ctor, NameTracer.get_name,
    NameTracer.begin_obj, NameTracer.cout, bind, modify.
  cbn. rewrite Ho. cbn. rewrite lookup_insert_eq. cbn.
  destruct (decide (this = other)) as [->|].
  - by rewrite lookup_insert_eq.
  - rewrite lookup_insert_ne by done. by rewrite Ho.
Qed.

(** C4, amended.  In 01_rule_of_five.h every special member function other
    than a guarded self-assignment writes exactly one trace entry: two
    spaces, the name, the operation in mixed case (": Constructor",
    ": Destructor", ": COPY Constructor from ", ": COPY Assignment from ",
    ": MOVE Constructor from ", ": MOVE Assignment from "), the name of the
    source where there is one, and the end of line; the copies are taken
    from a Tracer that still owns its resource.  The upper-case
    "COPY CONSTRUCTOR from" is the line of the earlier Tracer without a
    resource, also after two spaces. *)
Theorem trace_line_shapes (s : state) :
  wf s →
  (∀ this n,
     ∃ s', exec (Tracer_ctor this n) s = Ok s' ∧
           out s' = out s ++ ["  " +:+ n +:+ ": Constructor" +:+ nl]) ∧
  (∀ this t, objs s !! this = Some t →
     ∃ s', exec (Tracer_dtor this) s = Ok s' ∧
           out s' = out s ++ ["  " +:+ name t +:+ ": Destructor" +:+ nl]) ∧
  (∀ this other o, objs s !! other = Some o → resource o ≠ None →
     ∃ s', exec (Tracer_copy_ctor this other) s = Ok s' ∧
           out s' = out s ++ ["  " +:+ name o +:+ ": COPY Constructor from "
                               +:+ name o +:+ nl]) ∧
  (∀ this other t o, this ≠ other →
     objs s !! this = Some t → objs s !! other = Some o → resource o ≠ None →
     ∃ s', exec (Tracer_copy_assign this other) s = Ok s' ∧
           out s' = out s ++ ["  " +:+ name t +:+ ": COPY Assignment from "
                               +:+ name o +:+ nl]) ∧
  (∀ this other o, this ≠ other → objs s !! other = Some o →
     ∃ s', exec (Tracer_move_ctor this other) s = Ok s' ∧
           out s' = out s ++ ["  " +:+ name o +:+ ": MOVE Constructor from "
                               +:+ name o +:+ nl]) ∧
  (∀ this other t o, this ≠ other →
     objs s !! this = Some t → objs s !! other = Some o →
     ∃ s', exec (Tracer_move_assign this other) s = Ok s' ∧
           out s' = out s ++ ["  " +:+ name t +:+ ": MOVE Assignment from "
                               +:+ name o +:+ nl]) ∧
  (∀ (s0 : NameTracer.state) this other n,
     NameTracer.objs s0 !! other = Some n →
     ∃ s0', exec (NameTracer.Tracer_copy_ctor this other) s0 = Ok s0' ∧
            NameTracer.out s0' = NameTracer.out s0 ++
              ["  " +:+ n +:+ ": COPY CONSTRUCTOR from " +:+ n +:+ nl]).
Proof.
  intros Hwf.
  split. { intros this n. unfold exec. rewrite ctor_run. by eexists. }
  split. { intros this t Ht. rewrite (exec_dtor _ _ _ Hwf Ht). by eexists. }
  split.
  { intros this other o Ho Hr. unfold exec. rewrite (copy_ctor_run _ _ _ _ Ho).
    pose proof (heap_load_owned _ _ _ Hwf Ho) as Hl.
    destruct (resource o); [|done]. destruct Hl as (v & _ & ->). by eexists. }
  split.
  { intros this other t o Hne Ht Ho Hr. unfold exec.
    rewrite (copy_assign_run _ _ _ _ _ Hne Ht Ho).
    pose proof (heap_load_owned _ _ _ Hwf Ho) as Hl.
    destruct (resource o); [|done]. destruct Hl as (v & _ & ->). cbn zeta.
    rewrite (heap_delete_after_new _ _ _ v Hwf Ht). by eexists. }
  split.
  { intros this other o Hne Ho. unfold exec.
    rewrite (move_ctor_run _ _ _ _ Hne Ho). by eexists. }
  split.
  { intros this other t o Hne Ht Ho. unfold exec.
    rewrite (move_assign_run _ _ _ _ _ Hne Ht Ho),
      (heap_delete_owned _ _ _ Hwf Ht). by eexists. }
  intros s0 this other n Ho. rewrite (name_tracer_copy_ctor_run _ _ _ _ Ho).
  by eexists.
Qed.

(** C4, amended, on a copy of [a]. *)
Lemma trace_line_shapes_witness :
  wf alice_and_bob ∧
  ∃ s', exec (Tracer_copy_ctor 3 1) alice_and_bob = Ok s' ∧
        out s' = out alice_and_bob ++
                 ["  Alice: COPY Constructor from Alice" +:+ nl].
Proof.
  split; [exact wf_alice_and_bob|].
  destruct (trace_line_shapes alice_and_bob wf_alice_and_bob)
    as (_ & _ & Hcopy & _).
  apply (Hcopy 3%positive 1%positive
           {| name := "Alice"; resource := Some 1%positive |});
    [reflexivity | discriminate].
Defined.

(** *** The exercises, run from the empty state *)

Example exercise_1_1_trace :
  trace_of exercise_1_1 =
  Ok [nl +:+ "🚀 Exercise 1.1" +:+ nl;
      "  t1: Constructor" +:+ nl;
      "  t1: COPY Constructor from t1" +:+ nl;
      "...end of scope" +:+ nl;
      "  t1: Destructor" +:+ nl;
      "  t1: Destructor" +:+ nl].
Proof. vm_compute. reflexivity. Qed.

Example exercise_1_2_trace :
  trace_of exercise_1_2 =
  Ok [nl +:+ "🚀 Exercise 1.2" +:+ nl;
      "  t1: Constructor" +:+ nl;
      "  t2: Constructor" +:+ nl;
      "  t2: COPY Assignment from t1" +:+ nl;
      "...end of scope" +:+ nl;
      "  t1: Destructor" +:+ nl;
      "  t1: Destructor" +:+ nl].
Proof. vm_compute. reflexivity. Qed.

Example exercise_2_3_trace :
  trace_of exercise_2_3 =
  Ok [nl +:+ "🚀 Exercise 2.3" +:+ nl;
      "  t1: Constructor" +:+ nl;
      "  t1: MOVE Constructor from t1" +:+ nl;
      "State of t1: name = 't1 [moved]'" +:+ nl;
      "  t1: Destructor" +:+ nl;
      "  t1 [moved]: Destructor" +:+ nl].
Proof. vm_compute. reflexivity. Qed.

Example exercise_5_1_trace :
  trace_of exercise_5_1 =
  Ok [nl +:+ "🚀 Exercise 5.1" +:+ nl;
      "  Alice: Constructor" +:+ nl;
      "  Bob: Constructor" +:+ nl;
      "Before move: a = Alice, b = Bob" +:+ nl;
      "  Alice: MOVE Assignment from Bob" +:+ nl;
      "After move:  a = Bob, b = BobBob [moved]" +:+ nl;
      "  BobBob [moved]: Destructor" +:+ nl;
      "  Bob: Destructor" +:+ nl].
Proof. vm_compute. reflexivity. Qed.

(** *** Growing a vector *)

Lemma flat_map_agree {A B} (f g : A → list B) (l : list A) :
  (∀ x, x ∈ l → f x = g x) → flat_map f l = flat_map g l.
Proof.
  induction l as [|a l IH]; intros Hfg; [done|]. cbn.
  rewrite (Hfg a), IH; [done| |].
  - intros x Hx. apply Hfg, elem_of_cons. by right.
  - apply elem_of_cons. by left.
Qed.

(** Relocation by move, for a buffer of any length: each element in turn
    is move-constructed into a new object and its moved-from source is
    destroyed at once. *)
Lemma relocate_by_move_trace old :
  ∀ s, wf s → NoDup old → Forall (λ o, is_Some (objs s !! o)) old →
    ∃ new s',
      relocate_by_move old s = Ok (new, s') ∧ wf s' ∧
      out s' = out s ++
               flat_map (λ e, [move_ctor_line (name_of s e);
                               dtor_line (name_of s e +:+ " [moved]")]) old ∧
      map (name_of s') new = map (name_of s) old ∧
      (∀ x, x ∉ old → is_Some (objs s !! x) → objs s' !! x = objs s !! x).
Proof.
  induction old as [|e old IH]; intros s Hwf Hnd Hlive.
  { exists [], s. rewrite app_nil_r. done. }
  apply NoDup_cons in Hnd as [Hnotin Hnd].
  apply Forall_cons in Hlive as [[t Ht] Hlive].
  rewrite Forall_forall in Hlive.
  set (e' := fresh (dom (objs s))).
  assert (Hfresh : objs s !! e' = None) by apply not_elem_of_dom, is_fresh.
  assert (Hne : e' ≠ e) by congruence.
  assert (Hold : ∀ x, x ∈ old → x ≠ e ∧ x ≠ e').
  { intros x Hx. split; [by intros ->|]. intros ->.
    destruct (Hlive _ Hx); congruence. }
  set (s1 := {| objs := <[e := {| name := name t +:+ " [moved]"; resource := None |}]>
                          (<[e' := {| name := name t; resource := resource t |}]> (objs s));
                heap := heap s; frame := frame s;
                out := out s ++ [move_ctor_line (name t)] |}).
  set (s2 := {| objs := delete e (objs s1); heap := heap s; frame := frame s;
                out := out s1 ++ [dtor_line (name t +:+ " [moved]")] |}).
  assert (Hwf1 : wf s1) by (eapply (wf_transfer _ _ _ t t); eauto).
  assert (Hwf2 : wf s2).
  { eapply (wf_release s1 e); [done|apply lookup_insert_eq|done]. }
  assert (Hsame : ∀ x, x ≠ e → x ≠ e' → objs s2 !! x = objs s !! x).
  { intros x H1 H2. cbn. by rewrite lookup_delete_ne, !lookup_insert_ne. }
  destruct (IH s2 Hwf2 Hnd) as (new & s' & Hrun & Hwf' & Hout & Hnames & Hkeep).
  { rewrite Forall_forall. intros x Hx. destruct (Hold _ Hx).
    rewrite Hsame by done. by apply Hlive. }
  exists (e' :: new), s'. split.
  { cbn [relocate_by_move]. unfold bind, fresh_obj, gets. fold e'.
    assert (Hm : Tracer_move_ctor e' e s = Ok (tt, s1))
      by exact (move_ctor_run _ _ _ _ Hne Ht).
    assert (Hd : Tracer_dtor e s1 = Ok (tt, s2))
      by (by rewrite (dtor_run s1 e _ (lookup_insert_eq _ _ _))).
    by rewrite Hm, Hd, Hrun. }
  split; [done|].
  assert (He' : objs s' !! e' = Some {| name := name t; resource := resource t |}).
  { rewrite Hkeep.
    - cbn. by rewrite lookup_delete_ne, lookup_insert_ne, lookup_insert_eq.
    - intros Hin. by destruct (Hold _ Hin).
    - cbn. rewrite lookup_delete_ne, lookup_insert_ne, lookup_insert_eq by done.
      eauto. }
  assert (Hn2 : ∀ x, x ∈ old → name_of s2 x = name_of s x).
  { intros x Hx. destruct (Hold _ Hx). unfold name_of. by rewrite Hsame. }
  split; [|split].
  - rewrite Hout. cbn. rewrite <- !app_assoc. cbn. unfold name_of at 3 4.
    rewrite Ht. do 3 f_equal.
    apply flat_map_agree. intros x Hx. by rewrite Hn2.
  - cbn. f_equal.
    + unfold name_of at 1 2. by rewrite He', Ht.
    + rewrite Hnames. apply map_ext_in. intros x Hx%list_elem_of_In. by apply Hn2.
  - intros x Hx [u Hu]. apply not_elem_of_cons in Hx as [Hxe Hxold].
    assert (x ≠ e') by congruence.
    rewrite Hkeep; [by apply Hsame|done|]. rewrite Hsame by done. eauto.
Qed.

(** C7.  Growing the vector in exercise 6.1.  The move constructor of Tracer
    is noexcept; the fifth [emplace_back] on a vector reserved at 4 writes
    the Constructor line of the new element and then, for each of the four
    old elements in order, its MOVE Constructor line followed at once by the
    Destructor line of the moved-from source: four moves, four destructors,
    no copy. *)
Theorem reallocation_relocates_by_move :
  Tracer_nothrow_move_constructible = true ∧
  trace_of exercise_6_1 =
    Ok ([ nl +:+ "🚀 Exercise 6.1" +:+ nl;
          "Adding 4 elements..." +:+ nl;
          "  v0: Constructor" +:+ nl;
          "  v1: Constructor" +:+ nl;
          "  v2: Constructor" +:+ nl;
          "  v3: Constructor" +:+ nl;
          "Forcing reallocation..." +:+ nl ]
        ++ relocation_lines ++
        [ "Size of vector: 5, capacity of vector: 8" +:+ nl;
          "  v0: Destructor" +:+ nl;
          "  v1: Destructor" +:+ nl;
          "  v2: Destructor" +:+ nl;
          "  v3: Destructor" +:+ nl;
          "  v4: Destructor" +:+ nl ]) ∧
  count_mentions "MOVE Constructor" relocation_lines = 4 ∧
  count_mentions "COPY" relocation_lines = 0 ∧
  count_mentions "[moved]: Destructor" relocation_lines = 4.
Proof. repeat split; vm_compute; reflexivity. Qed.

(** Without [noexcept] the same growth copies the elements. *)
Example reallocation_copies_when_move_may_throw :
  ∃ lines, trace_of (exercise_6_1_for false) = Ok lines ∧
           count_mentions "MOVE Constructor" lines = 0 ∧
           count_mentions "COPY Constructor" lines = 4.
Proof. eexists. split; [vm_compute; reflexivity|]. by vm_compute. Qed.

End TracerProofs.

(** * Properties of the string examples and of the dispatchers *)

Module StringsProofs.
Import Strings.

(** C10.  NaiveString is copied member by member: after
    [NaiveString str2 = str1] both hold the same buffer, the write
    [str2.m_data[0] = 'J'] is read back through [str1] as "Jello", and at the
    closing brace the destructor of [str2] frees the buffer that the
    destructor of [str1] then reads and would free a second time; the run
    stops there with a fault. *)
Theorem naive_string_double_free :
  ∃ s1 str1 str2 p s2,
    Naive_Run_body init = Ok ((str1, str2), s1) ∧
    m_data str1 = Some p ∧ m_data str2 = Some p ∧
    heap s1 !! p = Some (Live JELLO) ∧
    read_c_str (m_data str1) s1 = Ok ("Jello", s1) ∧
    out s1 = [ "Constructor called for 'Hello'" +:+ nl;
               "Copying str1 to str2..." +:+ nl;
               "str1: "; "Hello" +:+ nl; "str2: "; "Hello" +:+ nl;
               nl +:+ "After modifying str2:" +:+ nl;
               "str1: "; "Jello" +:+ nl; "str2: "; "Jello" +:+ nl;
               nl +:+ "Exiting main. Destructors will be called." +:+ nl ] ∧
    exec (NaiveString_dtor str2) s1 = Ok s2 ∧
    heap s2 !! p = Some Freed ∧
    exec (delete_array (m_data str1)) s2 = Fault (DoubleFree p) ∧
    exec (NaiveString_dtor str1) s2 = Fault (UseAfterFree p) ∧
    exec Program_01_Naive_String_Run init = Fault (UseAfterFree p).
Proof.
  eexists _, _, _, _, _.
  split; [vm_compute; reflexivity|].
  split; [reflexivity|]. split; [reflexivity|].
  split; [vm_compute; reflexivity|].
  split; [vm_compute; reflexivity|].
  split; [vm_compute; reflexivity|].
  split; [vm_compute; reflexivity|].
  repeat split; vm_compute; reflexivity.
Qed.

(** The deep copy of BetterString keeps the two apart. *)
Example better_string_run :
  match exec Program_02_Better_String_Run init with
  | Ok s => ∀ p c, heap s !! p = Some c → c = Freed
  | Fault _ => False
  end.
Proof.
  vm_compute. intros p c.
  destruct p as [[p|p|]|[p|p|]|]; try destruct p; cbn; congruence.
Qed.

Lemma main_unrecognised (programId : Z) (s : state) :
  programId ≠ 1%Z → programId ≠ 2%Z →
  main (Some programId) s =
  Ok (0%Z, {| heap := heap s; out := out s ++ [header programId] |}).
Proof.
  intros H1 H2. unfold main, bind, cout, modify, ret, header.
  destruct programId as [|[[]|[]|]|]; done.
Qed.

Section StdFormat.
Context {S : Type} (cout : string → M S unit) (P1 P2 P3 P4 : M S unit).

Lemma std_format_main_unrecognised (programId : Z) (s : S) :
  (programId < 1 ∨ 4 < programId)%Z →
  StdFormat.main cout P1 P2 P3 P4 (Some programId) s =
  (cout (header programId);; ret 0%Z) s.
Proof.
  intros Hid. unfold StdFormat.main, bind, ret, header.
  destruct (cout _ s) as [[[] s1]|]; [|done].
  destruct programId as [|[[[]|[]|]|[[]|[]|]|]|]; try done; lia.
Qed.
End StdFormat.

(** C9.  The selector.  For a program id other than the recognised ones
    [main] prints its "Running program" line, runs no program and returns 0;
    for a recognised id it runs the selected program and nothing else
    between that line and [return 0]; without an argument it behaves as for
    its default id.  This holds for the main of the copy examples (ids 1, 2,
    default 1) and for the main of the format examples (ids 1 to 4,
    default 4). *)
Theorem selector_dispatch :
  (∀ (programId : Z) (s : state), programId ≠ 1%Z → programId ≠ 2%Z →
     main (Some programId) s =
     Ok (0%Z, {| heap := heap s; out := out s ++ [header programId] |})) ∧
  (∀ s, main (Some 1%Z) s =
        (Strings.cout (header 1);; Program_01_Naive_String_Run;; ret 0%Z) s) ∧
  (∀ s, main (Some 2%Z) s =
        (Strings.cout (header 2);; Program_02_Better_String_Run;; ret 0%Z) s) ∧
  (∀ s, main None s = main (Some 1%Z) s) ∧
  (∀ (S : Type) (cout : string → M S unit) (P1 P2 P3 P4 : M S unit),
     (∀ (programId : Z) (s : S), (programId < 1 ∨ 4 < programId)%Z →
        StdFormat.main cout P1 P2 P3 P4 (Some programId) s =
        (cout (header programId);; ret 0%Z) s) ∧
     (∀ s, StdFormat.main cout P1 P2 P3 P4 (Some 1%Z) s =
           (cout (header 1);; P1;; ret 0%Z) s) ∧
     (∀ s, StdFormat.main cout P1 P2 P3 P4 (Some 2%Z) s =
           (cout (header 2);; P2;; ret 0%Z) s) ∧
     (∀ s, StdFormat.main cout P1 P2 P3 P4 (Some 3%Z) s =
           (cout (header 3);; P3;; ret 0%Z) s) ∧
     (∀ s, StdFormat.main cout P1 P2 P3 P4 (Some 4%Z) s =
           (cout (header 4);; P4;; ret 0%Z) s) ∧
     (∀ s, StdFormat.main cout P1 P2 P3 P4 None s =
           StdFormat.main cout P1 P2 P3 P4 (Some 4%Z) s)).
Proof.
  split; [exact main_unrecognised|].
  do 3 (split; [done|]).
  intros S cout P1 P2 P3 P4.
  split; [apply std_format_main_unrecognised|]. done.
Qed.

(** C9 on the program id 7. *)
Lemma selector_dispatch_witness :
  main (Some 7%Z) init =
  Ok (0%Z, {| heap := ∅; out := ["Running program 7..." +:+ nl] |}).
Proof.
  destruct selector_dispatch as [Hnone _].
  apply (Hnone 7%Z init); discriminate.
Defined.

End StringsProofs.

(** * Further properties of Tracer *)

Module TracerExtra.
Import Tracer TracerRun TracerProofs.

Lemma no_leak_alloc s this n v fr ou :
  no_leak s → objs s !! this = None →
  no_leak {| objs := <[this := {| name := n; resource := Some (fresh (dom (heap s))) |}]> (objs s);
             heap := <[fresh (dom (heap s)) := Live v]> (heap s);
             frame := fr; out := ou |}.
Proof.
  intros Hnl Hdead a w; cbn. destruct (decide (a = fresh (dom (heap s)))) as [->|Hne].
  - intros _. eexists this, _. rewrite lookup_insert_eq. done.
  - rewrite lookup_insert_ne by done. intros Ha.
    destruct (Hnl _ _ Ha) as (o & t & Ho & Hr). exists o, t.
    rewrite lookup_insert_ne by congruence. done.
Qed.

Lemma no_leak_release s this t h fr ou :
  no_leak s → objs s !! this = Some t →
  heap_delete (heap s) (resource t) = Ok h →
  no_leak {| objs := delete this (objs s); heap := h; frame := fr; out := ou |}.
Proof.
  intros Hnl Ht Hd a w; cbn. intros Ha.
  assert (Hold : heap s !! a = Some (Live w) ∧ resource t ≠ Some a).
  { unfold heap_delete in Hd. destruct (resource t) as [b|]; simplify_eq; [|done].
    destruct (heap s !! b) as [[|]|] eqn:Hb; simplify_eq.
    destruct (decide (a = b)) as [->|].
    - by rewrite lookup_insert_eq in Ha.
    - rewrite lookup_insert_ne in Ha by done. split; congruence. }
  destruct Hold as [Ha' Hne].
  destruct (Hnl _ _ Ha') as (o & t' & Ho & Hr). exists o, t'.
  rewrite lookup_delete_ne by congruence. done.
Qed.

Lemma no_leak_replace s this t n v h fr ou :
  no_leak s → objs s !! this = Some t →
  heap_delete (<[fresh (dom (heap s)) := Live v]> (heap s)) (resource t) = Ok h →
  no_leak {| objs := <[this := {| name := n; resource := Some (fresh (dom (heap s))) |}]> (objs s);
             heap := h; frame := fr; out := ou |}.
Proof.
  intros Hnl Ht Hd a w; cbn. intros Ha.
  destruct (decide (a = fresh (dom (heap s)))) as [->|Hne].
  { eexists this, _. rewrite lookup_insert_eq. done. }
  assert (Hold : heap s !! a = Some (Live w) ∧ resource t ≠ Some a).
  { unfold heap_delete in Hd. destruct (resource t) as [b|]; simplify_eq.
    - destruct (_ !! b) as [[|]|] eqn:Hb; simplify_eq.
      destruct (decide (a = b)) as [->|].
      + by rewrite lookup_insert_eq in Ha.
      + rewrite !lookup_insert_ne in Ha by done. split; congruence.
    - rewrite lookup_insert_ne in Ha by done. done. }
  destruct Hold as [Ha' Hne'].
  destruct (Hnl _ _ Ha') as (o & t' & Ho & Hr). exists o, t'.
  rewrite lookup_insert_ne by congruence. done.
Qed.

Lemma no_leak_transfer s this other o n1 n2 h fr ou :
  no_leak s → this ≠ other → objs s !! other = Some o →
  (objs s !! this = None ∧ h = heap s ∨
   ∃ t, objs s !! this = Some t ∧ heap_delete (heap s) (resource t) = Ok h) →
  no_leak {| objs := <[other := {| name := n2; resource := None |}]>
                       (<[this := {| name := n1; resource := resource o |}]> (objs s));
             heap := h; frame := fr; out := ou |}.
Proof.
  intros Hnl Hne Ho Hh a w; cbn. intros Ha.
  assert (Hold : heap s !! a = Some (Live w) ∧
                 ∀ t, objs s !! this = Some t → resource t ≠ Some a).
  { destruct Hh as [[Hdead ->]|(t & Ht & Hd)]; [split; [done|congruence]|].
    unfold heap_delete in Hd. destruct (resource t) as [b|] eqn:Hb; simplify_eq.
    - destruct (heap s !! b) as [[|]|] eqn:Hb'; simplify_eq.
      destruct (decide (a = b)) as [->|].
      + by rewrite lookup_insert_eq in Ha.
      + rewrite lookup_insert_ne in Ha by done. split; [done|]. congruence.
    - split; [done|]. congruence. }
  destruct Hold as [Ha' Hthis].
  destruct (Hnl _ _ Ha') as (o' & t' & Ho' & Hr).
  destruct (decide (o' = other)) as [->|Hneo].
  - simplify_eq. eexists this, _.
    rewrite lookup_insert_ne, lookup_insert_eq by done. done.
  - assert (o' ≠ this) by (intros ->; by eapply Hthis).
    exists o', t'. rewrite !lookup_insert_ne by done. done.
Qed.

Lemma run_op_no_leak (s s' : state) (o : op) :
  wf s → no_leak s → on_new_storage s o →
  exec (run_op o) s = Ok s' → no_leak s'.
Proof.
  intros Hwf Hnl Hnew. destruct o as [this n|this|this other|this other|this other|this other];
    cbn [run_op on_new_storage] in *.
  - unfold exec. rewrite ctor_run. intros [= <-]. by apply no_leak_alloc.
  - unfold exec. destruct (objs s !! this) as [t|] eqn:Ht.
    + rewrite (dtor_run _ _ _ Ht).
      destruct (heap_delete _ _) eqn:Hd; [|done]. intros [= <-].
      by eapply no_leak_release.
    + unfold_ops. cbn. by rewrite Ht.
  - unfold exec. destruct (objs s !! other) as [t|] eqn:Ht.
    + rewrite (copy_ctor_run _ _ _ _ Ht).
      destruct (heap_load _ _); [|done]. intros [= <-]. by apply no_leak_alloc.
    + unfold_ops. cbn. by rewrite Ht.
  - unfold exec. destruct (decide (this = other)) as [->|Hne].
    { unfold Tracer_copy_assign. rewrite decide_True by done. by intros [= <-]. }
    destruct (objs s !! this) as [t|] eqn:Ht; cycle 1.
    { unfold Tracer_copy_assign. rewrite decide_False by done.
      unfold_ops. cbn. by rewrite Ht. }
    destruct (objs s !! other) as [t'|] eqn:Ho; cycle 1.
    { unfold Tracer_copy_assign. rewrite decide_False by done.
      unfold_ops. cbn. by rewrite Ht, Ho. }
    rewrite (copy_assign_run _ _ _ _ _ Hne Ht Ho).
    destruct (heap_load _ _) as [v|]; [|done]. cbn zeta.
    destruct (heap_delete _ _) as [h|] eqn:Hd; [|done]. intros [= <-].
    by eapply no_leak_replace.
  - unfold exec. destruct (objs s !! other) as [t'|] eqn:Ho; cycle 1.
    { unfold_ops. cbn. by rewrite Ho. }
    assert (Hne : this ≠ other) by congruence.
    rewrite (move_ctor_run _ _ _ _ Hne Ho). intros [= <-].
    eapply no_leak_transfer; eauto.
  - unfold exec. destruct (decide (this = other)) as [->|Hne].
    { unfold Tracer_move_assign. rewrite decide_True by done. by intros [= <-]. }
    destruct (objs s !! other) as [t'|] eqn:Ho; cycle 1.
    { unfold Tracer_move_assign. rewrite decide_False by done.
      unfold_ops. cbn. by rewrite Ho. }
    destruct (objs s !! this) as [t|] eqn:Ht; cycle 1.
    { unfold Tracer_move_assign. rewrite decide_False by done.
      unfold_ops. cbn. by rewrite Ho, Ht. }
    rewrite (move_assign_run _ _ _ _ _ Hne Ht Ho).
    destruct (heap_delete _ _) as [h|] eqn:Hd; [|done]. intros [= <-].
    eapply no_leak_transfer; eauto.
Qed.

Lemma no_leak_init : no_leak init.
Proof. intros a v; cbn. by rewrite lookup_empty. Qed.

Lemma no_leak_ext s1 s2 :
  objs s1 = objs s2 → heap s1 = heap s2 → no_leak s1 → no_leak s2.
Proof. intros Ho Hh Hnl a v. rewrite <- Ho, <- Hh. apply Hnl. Qed.

Lemma destroy_all_keeps l :
  ∀ s s', wf s → no_leak s → exec (destroy_all l) s = Ok s' →
          wf s' ∧ no_leak s'.
Proof.
  induction l as [|o l IH]; intros s s' Hwf Hnl.
  { cbn. by intros [= <-]. }
  cbn [destroy_all]. rewrite exec_seq.
  pose proof (dtor_safe s o Hwf) as Hs.
  destruct (exec (Tracer_dtor o) s) as [s1|] eqn:Hd; [|done].
  intros Hrest. apply (IH s1 s'); [done| |done].
  by apply (run_op_no_leak s s1 (Destruct o)).
Qed.


Lemma run_op_wf s s' o : wf s → exec (run_op o) s = Ok s' → wf s'.
Proof.
  intros Hwf Hrun. pose proof (run_op_safe s o Hwf) as Hs. by rewrite Hrun in Hs.
Qed.

(** X2.  No leak.  In a state where owned cells are live, each cell has one
    owner and every live cell has an owner, any special member function
    that returns keeps all three, provided a constructor runs on storage
    that holds no live Tracer: no operation loses a cell. *)
Theorem no_leak_preserved (s s' : state) (o : op) :
  wf s → no_leak s → on_new_storage s o →
  exec (run_op o) s = Ok s' → wf s' ∧ no_leak s'.
Proof.
  intros Hwf Hnl Hnew Hrun. split.
  - by apply (run_op_wf s s' o).
  - by apply (run_op_no_leak s s' o).
Qed.

Lemma wf_no_leak_alice_and_bob : wf alice_and_bob ∧ no_leak alice_and_bob.
Proof.
  split; [exact wf_alice_and_bob|].
  apply (no_leak_ext (built [Construct 1 "Alice"; Construct 2 "Bob"]));
    [reflexivity..|].
  apply (run_op_no_leak (built [Construct 1 "Alice"]) _ (Construct 2 "Bob")).
  - apply (wf_built [Construct 1 "Alice"] _ (built [Construct 1 "Alice"]));
      reflexivity.
  - apply (run_op_no_leak init _ (Construct 1 "Alice"));
      [apply wf_init | apply no_leak_init | reflexivity | reflexivity].
  - reflexivity.
  - reflexivity.
Qed.

(** X2 on [a = b] after exercise 5.1's declarations. *)
Lemma no_leak_preserved_witness :
  ∃ s', exec (run_op (CopyAssign 1 2)) alice_and_bob = Ok s' ∧
        wf s' ∧ no_leak s'.
Proof.
  eexists. split; [reflexivity|].
  apply (no_leak_preserved alice_and_bob _ (CopyAssign 1 2));
    [apply wf_no_leak_alice_and_bob | apply wf_no_leak_alice_and_bob
    | exact I | reflexivity].
Defined.

(** X3.  The closing brace gives everything back.  When the live Tracers
    are exactly the automatic objects of the open scope (pairwise
    distinct) and every live cell has an owner, leaving the scope succeeds
    and leaves no Tracer alive and no cell live. *)
Theorem scope_exit_frees_everything (s : state) :
  wf s → no_leak s → NoDup (frame s) →
  (∀ o, is_Some (objs s !! o) ↔ o ∈ frame s) →
  ∃ s', exec leave_scope s = Ok s' ∧ objs s' = ∅ ∧
        ∀ a v, heap s' !! a ≠ Some (Live v).
Proof.
  intros Hwf Hnl Hnd Hall.
  assert (Hlive : Forall (λ o, is_Some (objs s !! o)) (frame s)).
  { rewrite Forall_forall. intros o Ho. by apply Hall. }
  destruct (destroy_all_trace (frame s) s Hwf Hnd Hlive)
    as (s1 & Hrun & _ & _ & _ & Hdead & Hkeep).
  destruct (destroy_all_keeps (frame s) s s1 Hwf Hnl Hrun) as [_ Hnl1].
  assert (Hempty : objs s1 = ∅).
  { apply map_eq. intros o. rewrite lookup_empty.
    destruct (decide (o ∈ frame s)) as [Hin|Hnin]; [by apply Hdead|].
    apply Hkeep. destruct (objs s !! o) eqn:Ho; [|done].
    destruct Hnin. apply Hall. eauto. }
  exists (set_frame [] s1). split; [|split; [done|]].
  - unfold leave_scope, exec, bind, gets, modify in *.
    destruct (destroy_all (frame s) s) as [[[] ?]|]; by simplify_eq.
  - intros a v Ha. destruct (Hnl1 _ _ Ha) as (o & t & Ho & _).
    rewrite Hempty, lookup_empty in Ho. done.
Qed.

(** X3 on the scope of exercise 5.1. *)
Lemma scope_exit_frees_everything_witness :
  ∃ s', exec leave_scope alice_and_bob = Ok s' ∧ objs s' = ∅ ∧
        ∀ a v, heap s' !! a ≠ Some (Live v).
Proof.
  apply (scope_exit_frees_everything alice_and_bob).
  - apply wf_no_leak_alice_and_bob.
  - apply wf_no_leak_alice_and_bob.
  - apply (bool_decide_unpack _). vm_compute. exact I.
  - intros o. change (frame alice_and_bob) with [2%positive; 1%positive].
    rewrite !elem_of_cons, elem_of_nil.
    split.
    + intros [t Ht].
      destruct (decide (o = 1%positive)) as [->|]; [by right; left|].
      destruct (decide (o = 2%positive)) as [->|]; [by left|].
      exfalso. revert Ht. change (objs alice_and_bob) with
        (<[2%positive := {| name := "Bob"; resource := Some 2%positive |}]>
           (<[1%positive := {| name := "Alice"; resource := Some 1%positive |}]>
              (∅ : gmap positive Tracer))).
      by rewrite !lookup_insert_ne, lookup_empty by done.
    + intros [->|[->|[]]]; eexists; reflexivity.
Defined.

(** X1.  Copy assignment between two distinct Tracers, the source owning
    its resource: the target ends with the name of the source and a cell
    that was not allocated before and holds the value of the source; the
    cell the target owned is freed; the source and every other cell are
    untouched. *)
Theorem copy_assign_replaces_cell (s : state) (this other : positive)
    (t o : Tracer) (p : positive) :
  wf s → this ≠ other →
  objs s !! this = Some t → objs s !! other = Some o → resource o = Some p →
  ∃ s' q v,
    exec (Tracer_copy_assign this other) s = Ok s' ∧ wf s' ∧
    heap s !! p = Some (Live v) ∧
    objs s' !! this = Some {| name := name o; resource := Some q |} ∧
    objs s' !! other = Some o ∧
    heap s !! q = None ∧ heap s' !! q = Some (Live v) ∧
    heap s' !! p = Some (Live v) ∧
    (∀ b, resource t = Some b → heap s' !! b = Some Freed) ∧
    (∀ a, a ≠ q → resource t ≠ Some a → heap s' !! a = heap s !! a).
Proof.
  intros Hwf Hne Ht Ho Hp.
  pose proof (copy_assign_safe s this other Hwf) as Hsafe.
  pose proof (heap_load_owned _ _ _ Hwf Ho) as Hl. rewrite Hp in Hl.
  destruct Hl as (v & Hv & Hload).
  pose proof (fresh_unused (heap s)) as Hf.
  unfold exec in *.
  rewrite (copy_assign_run _ _ _ _ _ Hne Ht Ho), Hp, Hload in *. cbn zeta in *.
  rewrite (heap_delete_after_new _ _ _ v Hwf Ht) in *.
  eexists _, (fresh (dom (heap s))), v. split; [done|]. split; [done|].
  split; [done|]. cbn.
  split; [by rewrite lookup_insert_eq|].
  split; [by rewrite lookup_insert_ne|].
  split; [done|].
  assert (Hown : ∀ b, resource t = Some b →
                      b ≠ fresh (dom (heap s)) ∧ b ≠ p).
  { intros b Hb. destruct Hwf as [HL HS]. split.
    - destruct (HL _ _ _ Ht Hb); congruence.
    - intros ->. apply Hne. by apply (HS this other t o p). }
  destruct (resource t) as [b|] eqn:Hb.
  - destruct (Hown b eq_refl) as [Hb1 Hb2].
    split; [by rewrite lookup_insert_ne, lookup_insert_eq|].
    split; [rewrite !lookup_insert_ne; [done|congruence|done]|].
    split; [intros ? [= <-]; by rewrite lookup_insert_eq|].
    intros a Ha1 Ha2. rewrite !lookup_insert_ne; [done|done|congruence].
  - split; [by rewrite lookup_insert_eq|].
    split; [rewrite lookup_insert_ne; [done|congruence]|].
    split; [done|].
    intros a Ha1 _. by rewrite lookup_insert_ne.
Qed.

(** X1 on [a = b] after exercise 5.1's declarations. *)
Lemma copy_assign_replaces_cell_witness :
  ∃ s' q v,
    exec (Tracer_copy_assign 1 2) alice_and_bob = Ok s' ∧ wf s' ∧
    heap alice_and_bob !! 2%positive = Some (Live v) ∧
    objs s' !! 1%positive = Some {| name := "Bob"; resource := Some q |} ∧
    objs s' !! 2%positive = Some {| name := "Bob"; resource := Some 2%positive |} ∧
    heap alice_and_bob !! q = None ∧ heap s' !! q = Some (Live v) ∧
    heap s' !! 2%positive = Some (Live v) ∧
    (∀ b, Some 1%positive = Some b → heap s' !! b = Some Freed) ∧
    (∀ a, a ≠ q → Some 1%positive ≠ Some a →
          heap s' !! a = heap alice_and_bob !! a).
Proof.
  apply (copy_assign_replaces_cell alice_and_bob 1 2
           {| name := "Alice"; resource := Some 1%positive |}
           {| name := "Bob"; resource := Some 2%positive |} 2);
    [exact wf_alice_and_bob | discriminate | reflexivity | reflexivity
    | reflexivity].
Defined.

(** X4.  Move assignment between two distinct Tracers frees exactly the
    cell the target owned and allocates nothing; the target takes the
    name and the cell of the source, which is not the freed one and
    stays live. *)
Theorem move_assign_frees_old_cell (s : state) (this other : positive)
    (t o : Tracer) :
  wf s → this ≠ other →
  objs s !! this = Some t → objs s !! other = Some o →
  ∃ s',
    exec (Tracer_move_assign this other) s = Ok s' ∧
    objs s' !! this = Some {| name := name o; resource := resource o |} ∧
    heap s' = match resource t with
              | Some b => <[b := Freed]> (heap s)
              | None => heap s
              end ∧
    (∀ p, resource o = Some p →
          resource t ≠ Some p ∧ ∃ v, heap s' !! p = Some (Live v)).
Proof.
  intros Hwf Hne Ht Ho. unfold exec.
  rewrite (move_assign_run _ _ _ _ _ Hne Ht Ho), (heap_delete_owned _ _ _ Hwf Ht).
  eexists. split; [done|]. cbn.
  split; [by rewrite lookup_insert_ne, lookup_insert_eq|].
  split; [done|].
  intros p Hp. destruct Hwf as [HL HS].
  assert (Hnot : resource t ≠ Some p).
  { intros Hq. apply Hne. by apply (HS this other t o p). }
  split; [done|]. destruct (HL _ _ _ Ho Hp) as [v Hv]. exists v.
  destruct (resource t) as [b|]; [|done].
  rewrite lookup_insert_ne; [done|congruence].
Qed.

(** X4 on exercise 5.1. *)
Lemma move_assign_frees_old_cell_witness :
  ∃ s',
    exec (Tracer_move_assign 1 2) alice_and_bob = Ok s' ∧
    objs s' !! 1%positive = Some {| name := "Bob"; resource := Some 2%positive |} ∧
    heap s' = <[1%positive := Freed]> (heap alice_and_bob) ∧
    (∀ p, Some 2%positive = Some p →
          Some 1%positive ≠ Some p ∧ ∃ v, heap s' !! p = Some (Live v)).
Proof.
  apply (move_assign_frees_old_cell alice_and_bob 1 2
           {| name := "Alice"; resource := Some 1%positive |}
           {| name := "Bob"; resource := Some 2%positive |});
    [exact wf_alice_and_bob | discriminate | reflexivity | reflexivity].
Defined.


(** X5.  Growth of a full vector, for any number of elements.  With a
    noexcept move constructor, [emplace_back] on a full vector of live,
    pairwise distinct Tracers succeeds; it writes the Constructor line of
    the new element and then, for each old element in order, its
    MOVE Constructor line followed by the Destructor line of the tagged
    source; the vector ends with the same names in the same order followed
    by the new one, and its capacity has doubled (1 for an empty vector). *)
Theorem emplace_back_on_full_vector (s : state) (vec : vector) (n : string) :
  wf s → NoDup (elems vec) →
  Forall (λ o, is_Some (objs s !! o)) (elems vec) →
  capacity vec = length (elems vec) →
  ∃ vec' s',
    vector_emplace_back true vec n s = Ok (vec', s') ∧ wf s' ∧
    capacity vec' = (capacity vec + max (capacity vec) 1)%nat ∧
    out s' = out s ++
             ("  " +:+ n +:+ ": Constructor" +:+ nl) ::
             flat_map (λ e, [move_ctor_line (name_of s e);
                             dtor_line (name_of s e +:+ " [moved]")])
                      (elems vec) ∧
    map (name_of s') (elems vec') = map (name_of s) (elems vec) ++ [n].
Proof.
  intros Hwf Hnd Hlive Hfull. rewrite Forall_forall in Hlive.
  set (this := fresh (dom (objs s))).
  assert (Hdead : objs s !! this = None) by apply not_elem_of_dom, is_fresh.
  assert (Hnotin : this ∉ elems vec).
  { intros Hin. destruct (Hlive _ Hin). congruence. }
  set (s0 := {| objs := <[this := {| name := n;
                                     resource := Some (fresh (dom (heap s))) |}]> (objs s);
                heap := <[fresh (dom (heap s)) := Live 42%Z]> (heap s);
                frame := frame s;
                out := out s ++ ["  " +:+ n +:+ ": Constructor" +:+ nl] |}).
  assert (Hwf0 : wf s0) by by apply wf_alloc.
  assert (Hsame : ∀ e, e ∈ elems vec → objs s0 !! e = objs s !! e).
  { intros e He. cbn. rewrite lookup_insert_ne; [done|]. by intros <-. }
  destruct (relocate_by_move_trace (elems vec) s0 Hwf0 Hnd)
    as (new & s' & Hrun & Hwf' & Hout & Hnames & Hkeep).
  { rewrite Forall_forall. intros e He. rewrite Hsame by done. by apply Hlive. }
  assert (Hn0 : ∀ e, e ∈ elems vec → name_of s0 e = name_of s e).
  { intros e He. unfold name_of. by rewrite Hsame. }
  exists {| elems := new ++ [this];
            capacity := length (elems vec) + max (length (elems vec)) 1 |}, s'.
  split.
  { unfold vector_emplace_back. rewrite decide_False by lia.
    unfold bind, fresh_obj, gets, relocate, ret. fold this.
    rewrite ctor_run. fold s0. by rewrite Hrun. }
  split; [done|]. split; [cbn; by rewrite Hfull|]. split.
  - rewrite Hout. cbn. rewrite <- app_assoc. cbn. do 2 f_equal.
    apply flat_map_agree. intros e He. by rewrite Hn0.
  - cbn. rewrite map_app, Hnames. f_equal.
    + apply map_ext_in. intros e He%list_elem_of_In. by apply Hn0.
    + cbn. f_equal. unfold name_of. rewrite Hkeep; [|done|].
      * cbn. by rewrite lookup_insert_eq.
      * cbn. rewrite lookup_insert_eq. eauto.
Qed.

(** [vec.reserve(2); vec.emplace_back("v0"); vec.emplace_back("v1");] *)
Lemma full_vector_of_two :
  ∃ vec s,
    (vec <- vector_reserve true {| elems := []; capacity := 0 |} 2;
     vec <- vector_emplace_back true vec "v0";
     vector_emplace_back true vec "v1") init = Ok (vec, s) ∧
    vec = {| elems := [1%positive; 2%positive]; capacity := 2 |} ∧
    s = built [Construct 1 "v0"; Construct 2 "v1"].
Proof. eexists _, _. split; [reflexivity|]. split; reflexivity. Qed.

(** X5 on a vector of two. *)
Lemma emplace_back_on_full_vector_witness :
  ∃ vec' s',
    vector_emplace_back true
      {| elems := [1%positive; 2%positive]; capacity := 2 |} "v2"
      (built [Construct 1 "v0"; Construct 2 "v1"]) = Ok (vec', s') ∧
    capacity vec' = 4 ∧
    map (name_of s') (elems vec') = ["v0"; "v1"; "v2"].
Proof.
  destruct (emplace_back_on_full_vector
              (built [Construct 1 "v0"; Construct 2 "v1"])
              {| elems := [1%positive; 2%positive]; capacity := 2 |} "v2")
    as (vec' & s' & Hrun & _ & Hcap & _ & Hnames).
  - apply (wf_built [Construct 1 "v0"; Construct 2 "v1"] _
             (built [Construct 1 "v0"; Construct 2 "v1"])); reflexivity.
  - apply (bool_decide_unpack _). vm_compute. exact I.
  - repeat constructor; eexists; reflexivity.
  - reflexivity.
  - exists vec', s'. split; [exact Hrun|]. split; [exact Hcap|exact Hnames].
Defined.

Lemma live_cells_nil (h : gmap positive (cell Z)) :
  live_cells h = [] → ∀ a v, h !! a ≠ Some (Live v).
Proof.
  intros Hnil a v Ha.
  assert (Hin : (a, v) ∈ live_cells h).
  { unfold live_cells. apply list_elem_of_omap. exists (a, Live v).
    split; [by apply elem_of_map_to_list|done]. }
  rewrite Hnil in Hin. by apply elem_of_nil in Hin.
Qed.

(** X6.  The whole of [Program_01_CopyMove::Run], whether or not the
    compiler elides the copy in [createTracerNamed]: the ten exercises run
    to the end without a fault, no Tracer is left alive and no cell is
    left live; without the elision the run writes two more lines, one
    MOVE Constructor and one Destructor. *)
Theorem run_completes_and_frees_everything (nrvo : bool) :
  ∃ s, exec (Run nrvo) init = Ok s ∧
       objs s = ∅ ∧ (∀ a v, heap s !! a ≠ Some (Live v)) ∧ frame s = [] ∧
       length (out s) = (if nrvo then 80 else 82) ∧
       count_mentions "MOVE Constructor" (out s) = (if nrvo then 7 else 8) ∧
       count_mentions "COPY Constructor" (out s) = 2 ∧
       count_mentions ": Destructor" (out s) = (if nrvo then 27 else 28).
Proof.
  destruct nrvo; eexists; (split; [vm_compute; reflexivity|]);
    (split; [vm_compute; reflexivity|]);
    (split; [apply live_cells_nil; vm_compute; reflexivity|]);
    repeat split; vm_compute; reflexivity.
Qed.

Example exercise_3_1_trace :
  trace_of exercise_3_1 =
  Ok [nl +:+ "🚀 Exercise 3.1" +:+ nl;
      "  t1: Constructor" +:+ nl;
      "Pushing back t1 (lvalue)..." +:+ nl;
      "  t1: COPY Constructor from t1" +:+ nl;
      "Pushing back temporary (rvalue)..." +:+ nl;
      "  temp: Constructor" +:+ nl;
      "  temp: MOVE Constructor from temp" +:+ nl;
      "  t1: MOVE Constructor from t1" +:+ nl;
      "  t1 [moved]: Destructor" +:+ nl;
      "  temp [moved]: Destructor" +:+ nl;
      "  t1: Destructor" +:+ nl;
      "  t1: Destructor" +:+ nl;
      "  temp: Destructor" +:+ nl].
Proof. vm_compute. reflexivity. Qed.

End TracerExtra.

(** * Further properties of the string examples *)

Module StringsExtra.
Import Strings StringsMore.

Lemma length_list_ascii (d : string) :
  length (list_ascii_of_string d) = String.length d.
Proof. induction d as [|c d IH]; cbn; [done|]. by rewrite IH. Qed.

Lemma c_str_nul_free (d : string) : nul_free d → c_str d = d.
Proof.
  unfold nul_free. induction d as [|c d IH]; cbn; [done|].
  intros [Hc Hd]%not_elem_of_cons.
  rewrite decide_False by done. by rewrite IH.
Qed.

Lemma length_c_chars (d : string) : length (c_chars d) = S (String.length d).
Proof. unfold c_chars. rewrite length_app, length_list_ascii. cbn. lia. Qed.

Lemma until_NUL_c_chars (d : string) (rest : list ascii) :
  nul_free d → until_NUL (c_chars d ++ rest) = Some d.
Proof.
  unfold nul_free, c_chars. induction d as [|c d IH]; cbn; intros Hfree.
  - by rewrite decide_True.
  - apply not_elem_of_cons in Hfree as [Hc Hd].
    rewrite decide_False by done. by rewrite IH.
Qed.

Lemma until_NUL_nul_free (buf : list ascii) (d : string) :
  until_NUL buf = Some d → nul_free d.
Proof.
  unfold nul_free. revert d. induction buf as [|c buf IH]; intros d; cbn; [done|].
  destruct (decide (c = NUL)) as [->|Hc].
  - intros [= <-]. cbn. apply not_elem_of_nil.
  - destruct (until_NUL buf) as [d'|]; cbn; [|done]. intros [= <-]. cbn.
    apply not_elem_of_cons. split; [done|]. by apply IH.
Qed.

Lemma fresh_unused' (h : gmap positive (cell (list ascii))) :
  h !! fresh (dom h) = None.
Proof. apply not_elem_of_dom, is_fresh. Qed.

(** The steps of the string programs, on a known heap *)

Lemma read_c_str_run s a buf str :
  heap s !! a = Some (Live buf) → until_NUL buf = Some str →
  read_c_str (Some a) s = Ok (str, s).
Proof. intros Ha Hs. unfold read_c_str. cbn. by rewrite Ha, Hs. Qed.

Lemma write_char_run s a buf i c :
  heap s !! a = Some (Live buf) → (i < length buf)%nat →
  write_char (Some a) i c s =
  Ok (tt, set_heap (<[a := Live (<[i := c]> buf)]> (heap s)) s).
Proof.
  intros Ha Hi. unfold write_char. cbn. rewrite Ha.
  by rewrite decide_True by done.
Qed.

Lemma delete_array_run s a buf :
  heap s !! a = Some (Live buf) →
  delete_array (Some a) s = Ok (tt, set_heap (<[a := Freed]> (heap s)) s).
Proof. intros Ha. unfold delete_array. cbn. by rewrite Ha. Qed.

Lemma new_and_strcpy s n d :
  nul_free d → (String.length d < n)%nat →
  (a <- new_char_array n; strcpy (Some a) d;; ret a) s =
  Ok (fresh (dom (heap s)),
      set_heap (<[fresh (dom (heap s)) :=
                    Live (c_chars d ++ replicate (n - S (String.length d)) NUL)]>
                  (heap s)) s).
Proof.
  intros Hd Hn.
  unfold bind, new_char_array, strcpy, write_chars, ret, heap_new, heap_load,
    heap_store, set_heap.
  rewrite (c_str_nul_free d Hd).
  cbn [heap out].
  rewrite !lookup_insert_eq. fold (c_chars d).
  rewrite decide_True by (rewrite length_c_chars, length_replicate; lia).
  rewrite insert_insert_eq, length_c_chars, drop_replicate. done.
Qed.

Ltac run_new_and_strcpy :=
  unfold bind, cout, modify, new_char_array, strcpy, write_chars, ret,
    heap_new, heap_load, heap_store, set_heap, strlen;
  cbn [heap out];
  rewrite !lookup_insert_eq.

Lemma NaiveString_ctor_run s d :
  nul_free d →
  NaiveString_ctor d s =
  Ok ({| m_data := Some (fresh (dom (heap s))); m_size := String.length d + 1 |},
      {| heap := <[fresh (dom (heap s)) := Live (c_chars d)]> (heap s);
         out := out s ++ ["Constructor called for '" +:+ d +:+ "'" +:+ nl] |}).
Proof.
  intros Hd. unfold NaiveString_ctor, strlen, strcpy.
  rewrite (c_str_nul_free d Hd). run_new_and_strcpy. fold (c_chars d).
  rewrite decide_True by (rewrite length_c_chars, length_replicate; lia).
  rewrite insert_insert_eq, length_c_chars, drop_replicate.
  replace (String.length d + 1 - S (String.length d))%nat with 0%nat by lia.
  cbn [replicate]. by rewrite app_nil_r.
Qed.

Lemma BetterString_ctor_run s d :
  nul_free d →
  BetterString_ctor d s =
  Ok ({| b_data := Some (fresh (dom (heap s))); b_size := String.length d + 1 |},
      {| heap := <[fresh (dom (heap s)) := Live (c_chars d)]> (heap s);
         out := out s ++ ["Constructor called for '" +:+ d +:+ "'" +:+ nl] |}).
Proof.
  intros Hd. unfold BetterString_ctor, strlen, strcpy.
  rewrite (c_str_nul_free d Hd). run_new_and_strcpy. fold (c_chars d).
  rewrite decide_True by (rewrite length_c_chars, length_replicate; lia).
  rewrite insert_insert_eq, length_c_chars, drop_replicate.
  replace (String.length d + 1 - S (String.length d))%nat with 0%nat by lia.
  cbn [replicate]. by rewrite app_nil_r.
Qed.

Lemma until_NUL_c_chars' (d : string) : nul_free d → until_NUL (c_chars d) = Some d.
Proof. intros Hd. rewrite <- (app_nil_r (c_chars d)). by apply until_NUL_c_chars. Qed.

(** X7.  Round trip through the buffer.  For a string without an inner
    terminator, the constructor of NaiveString and of BetterString writes
    one line, allocates a buffer one longer than the string, and printing
    the new object writes the string back, followed by the end of line. *)
Theorem ctor_then_print_round_trip (d : string) (s : state) :
  nul_free d →
  (∃ x s', NaiveString_ctor d s = Ok (x, s') ∧
           m_size x = S (String.length d) ∧
           heap s' !! fresh (dom (heap s)) = Some (Live (c_chars d)) ∧
           read_c_str (m_data x) s' = Ok (d, s') ∧
           exec (NaiveString_print x) s' =
             Ok {| heap := heap s'; out := out s' ++ [d +:+ nl] |}) ∧
  (∃ x s', BetterString_ctor d s = Ok (x, s') ∧
           b_size x = S (String.length d) ∧
           read_c_str (b_data x) s' = Ok (d, s') ∧
           exec (BetterString_print x) s' =
             Ok {| heap := heap s'; out := out s' ++ [d +:+ nl] |}).
Proof.
  intros Hd. split.
  - eexists _, _. split; [by apply NaiveString_ctor_run|].
    cbn [m_size m_data heap]. split; [lia|].
    split; [by rewrite lookup_insert_eq|].
    assert (Hr : ∀ s1, heap s1 = <[fresh (dom (heap s)) := Live (c_chars d)]> (heap s) →
                 read_c_str (Some (fresh (dom (heap s)))) s1 = Ok (d, s1)).
    { intros s1 Hs1. apply (read_c_str_run _ _ (c_chars d)).
      - by rewrite Hs1, lookup_insert_eq.
      - by apply until_NUL_c_chars'. }
    split; [by apply Hr|].
    unfold exec, NaiveString_print, bind. cbn [m_data]. by rewrite Hr.
  - eexists _, _. split; [by apply BetterString_ctor_run|].
    cbn [b_size b_data heap]. split; [lia|].
    assert (Hr : ∀ s1, heap s1 = <[fresh (dom (heap s)) := Live (c_chars d)]> (heap s) →
                 read_c_str (Some (fresh (dom (heap s)))) s1 = Ok (d, s1)).
    { intros s1 Hs1. apply (read_c_str_run _ _ (c_chars d)).
      - by rewrite Hs1, lookup_insert_eq.
      - by apply until_NUL_c_chars'. }
    split; [by apply Hr|].
    unfold exec, BetterString_print, bind. cbn [b_data]. by rewrite Hr.
Qed.

Lemma nul_free_Hello : nul_free "Hello".
Proof. apply (bool_decide_unpack _). vm_compute. exact I. Qed.

(** X7 on "Hello". *)
Lemma ctor_then_print_round_trip_witness :
  ∃ x s', NaiveString_ctor "Hello" init = Ok (x, s') ∧
          read_c_str (m_data x) s' = Ok ("Hello", s').
Proof.
  destruct (ctor_then_print_round_trip "Hello" init nul_free_Hello)
    as [(x & s' & Hc & _ & _ & Hr & _) _].
  exists x, s'. split; [exact Hc|exact Hr].
Defined.


Ltac unfold_strings :=
  unfold NaiveString_dtor, NaiveString_print, BetterString_dtor,
    BetterString_print, BetterString_copy_ctor, bind, cout, modify, ret,
    read_c_str, write_char, delete_array, new_char_array, strcpy, write_chars,
    heap_new, heap_load, heap_store, heap_delete, set_heap, exec;
  cbn [heap out m_data m_size b_data b_size fst snd NaiveString_copy default].

Ltac strings_step :=
  first
    [ rewrite lookup_insert_eq
    | rewrite lookup_insert_ne by congruence
    | rewrite insert_insert_eq
    | match goal with H : _ !! _ = _ |- _ => rewrite H end
    | match goal with H : until_NUL _ = _ |- _ => rewrite H end
    | progress cbn [heap out m_data m_size b_data b_size fst snd] ].

(** X8.  A NaiveString and its compiler-generated copy, for any string
    without an inner terminator and in any state: both hold the one buffer
    the constructor allocated; a write through the copy, at any index of
    the buffer, is a write to that buffer; the destructor of the copy
    frees it; after that the [delete[]] of the original is a double free,
    and a scope that holds the two faults when the original is destroyed. *)
Theorem naive_copy_shares_and_faults (d : string) (s : state) :
  nul_free d →
  ∃ x s1 s2,
    NaiveString_ctor d s = Ok (x, s1) ∧
    m_data x = Some (fresh (dom (heap s))) ∧
    m_data (NaiveString_copy x) = m_data x ∧
    (∀ i c, (i ≤ String.length d)%nat →
       ∃ s3, exec (write_char (m_data (NaiveString_copy x)) i c) s1 = Ok s3 ∧
             heap s3 !! fresh (dom (heap s))
               = Some (Live (<[i := c]> (c_chars d)))) ∧
    exec (NaiveString_dtor (NaiveString_copy x)) s1 = Ok s2 ∧
    heap s2 !! fresh (dom (heap s)) = Some Freed ∧
    exec (delete_array (m_data x)) s2 = Fault (DoubleFree (fresh (dom (heap s)))) ∧
    exec (naive_copy_scope d) s = Fault (UseAfterFree (fresh (dom (heap s)))).
Proof.
  intros Hd. pose proof (until_NUL_c_chars' d Hd) as Hread.
  eexists _, _, _. split; [by apply NaiveString_ctor_run|].
  split; [done|]. split; [done|]. split.
  { intros i c Hi. eexists. unfold_strings. rewrite !lookup_insert_eq.
    cbn [heap out]. rewrite decide_True by (rewrite length_c_chars; lia).
    split; [reflexivity|].
    cbn [heap]. by rewrite lookup_insert_eq. }
  split.
  { unfold_strings. repeat strings_step. reflexivity. }
  split; [cbn [heap]; by rewrite lookup_insert_eq|].
  split.
  { unfold_strings. by repeat strings_step. }
  unfold naive_copy_scope, exec, bind. rewrite NaiveString_ctor_run by done.
  unfold_strings. by repeat strings_step.
Qed.

(** X8 on "Hello". *)
Lemma naive_copy_shares_and_faults_witness :
  exec (naive_copy_scope "Hello") init = Fault (UseAfterFree 1).
Proof.
  destruct (naive_copy_shares_and_faults "Hello" init nul_free_Hello)
    as (x & s1 & s2 & _ & _ & _ & _ & _ & _ & _ & Hscope).
  exact Hscope.
Defined.


Lemma BetterString_copy_ctor_run s p buf d n :
  heap s !! p = Some (Live buf) → until_NUL buf = Some d →
  (String.length d < n)%nat →
  BetterString_copy_ctor {| b_data := Some p; b_size := n |} s =
  Ok ({| b_data := Some (fresh (dom (heap s))); b_size := n |},
      {| heap := <[fresh (dom (heap s)) :=
                     Live (c_chars d ++ replicate (n - S (String.length d)) NUL)]>
                   (heap s);
         out := out s ++ ["Deep copy constructor called." +:+ nl] |}).
Proof.
  intros Hp Hd Hn. pose proof (fresh_unused' (heap s)) as Hf.
  assert (Hq : p ≠ fresh (dom (heap s))) by congruence.
  unfold_strings. rewrite (lookup_insert_ne _ _ _ _ (not_eq_sym Hq)), Hp.
  cbn [heap out]. rewrite Hd. cbn [heap out].
  rewrite (c_str_nul_free d (until_NUL_nul_free _ _ Hd)), !lookup_insert_eq.
  cbn [heap out]. fold (c_chars d).
  rewrite decide_True by (rewrite length_c_chars, length_replicate; lia).
  by rewrite insert_insert_eq, length_c_chars, drop_replicate.
Qed.

(** X9.  The deep copy of BetterString.  For a BetterString whose buffer
    holds a terminated string that fits its size, the copy constructor
    succeeds and gives the copy a buffer that was not allocated before,
    of the same size and holding the same string; the buffer of the
    original is untouched, also by any write through the copy; and the two
    destructors, copy first, both succeed and free the two buffers. *)
Theorem better_string_deep_copy (s : state) (p : positive) (buf : list ascii)
    (d : string) (n : nat) :
  heap s !! p = Some (Live buf) → until_NUL buf = Some d →
  (String.length d < n)%nat →
  let b := {| b_data := Some p; b_size := n |} in
  ∃ c s' q,
    BetterString_copy_ctor b s = Ok (c, s') ∧
    b_data c = Some q ∧ q ≠ p ∧ heap s !! q = None ∧ b_size c = n ∧
    read_c_str (b_data c) s' = Ok (d, s') ∧
    read_c_str (b_data b) s' = Ok (d, s') ∧
    heap s' !! p = Some (Live buf) ∧
    (∀ i ch, (i < n)%nat →
       ∃ s'', exec (write_char (b_data c) i ch) s' = Ok s'' ∧
              heap s'' !! p = Some (Live buf)) ∧
    ∃ s3, exec (BetterString_dtor c;; BetterString_dtor b) s' = Ok s3 ∧
          heap s3 !! q = Some Freed ∧ heap s3 !! p = Some Freed.
Proof.
  intros Hp Hd Hn b. subst b. pose proof (fresh_unused' (heap s)) as Hf.
  pose proof (until_NUL_nul_free _ _ Hd) as Hfree.
  assert (Hq : fresh (dom (heap s)) ≠ p) by congruence.
  assert (Hcopy : until_NUL (c_chars d ++ replicate (n - S (String.length d)) NUL)
                  = Some d) by by apply until_NUL_c_chars.
  eexists _, _, (fresh (dom (heap s))).
  split; [by apply (BetterString_copy_ctor_run s p buf d n)|].
  split; [done|]. split; [done|]. split; [done|]. split; [done|].
  split.
  { eapply read_c_str_run; [cbn [b_data heap]; apply lookup_insert_eq|done]. }
  split.
  { eapply read_c_str_run; [|exact Hd]. cbn [heap].
    by rewrite lookup_insert_ne. }
  split; [cbn [heap]; by rewrite lookup_insert_ne|].
  split.
  { intros i ch Hi. eexists. unfold_strings. rewrite !lookup_insert_eq.
    cbn [heap out].
    rewrite decide_True
      by (rewrite length_app, length_c_chars, length_replicate; lia).
    split; [reflexivity|]. cbn [heap].
    by rewrite !lookup_insert_ne. }
  eexists. split.
  { unfold_strings.
    repeat first
      [ rewrite lookup_insert_eq
      | rewrite (lookup_insert_ne _ (fresh (dom (heap s))) p) by done
      | rewrite Hcopy | rewrite Hp | rewrite Hd
      | progress cbn [heap out b_data] ].
    reflexivity. }
  cbn [heap].
  split; [|by rewrite lookup_insert_eq].
  rewrite lookup_insert_ne by done. by rewrite lookup_insert_eq.
Qed.

(** X9 on the copy of "Hello" in [Program_02_Better_String::Run]. *)
Lemma better_string_deep_copy_witness :
  ∃ c s' q,
    BetterString_copy_ctor {| b_data := Some 1%positive; b_size := 6 |}
      {| heap := {[ 1%positive := Live HELLO ]}; out := [] |} = Ok (c, s') ∧
    b_data c = Some q ∧ q ≠ 1%positive ∧
    read_c_str (b_data c) s' = Ok ("Hello", s').
Proof.
  destruct (better_string_deep_copy
              {| heap := {[ 1%positive := Live HELLO ]}; out := [] |}
              1 HELLO "Hello" 6)
    as (c & s' & q & Hrun & Hq & Hne & _ & _ & Hread & _);
    [reflexivity | reflexivity | cbn; lia |].
  exists c, s', q. split; [exact Hrun|]. split; [exact Hq|].
  split; [exact Hne|exact Hread].
Defined.

Ltac unfold_assign :=
  unfold BetterString_copy_assign, set_size, set_data, on_mem, get_obj, exec;
  unfold_strings;
  cbn [objs mem heap out b_data b_size].

(** X11.  The assignment operator of BetterString.  Assigning an object to
    itself writes the line "Deep copy assignment called." and changes
    nothing else: the buffer is neither freed nor read.  Assigning from
    another object, each with its own live buffer and the source holding a
    terminated string that fits its size, succeeds: the old buffer of the
    target is freed, the target gets the size of the source and a buffer
    that was not allocated before and holds the string of the source, and
    the source and its buffer are untouched. *)
Theorem better_string_assignment :
  (∀ (s : ostate) (a : positive),
     exec (BetterString_copy_assign a a) s =
     Ok {| objs := objs s;
           mem := {| heap := heap (mem s);
                     out := out (mem s) ++
                            ["Deep copy assignment called." +:+ nl] |} |}) ∧
  (∀ (s : ostate) (this other : positive) (t o : BetterString)
     (pt po : positive) (buft bufo : list ascii) (d : string),
     this ≠ other →
     objs s !! this = Some t → objs s !! other = Some o →
     b_data t = Some pt → b_data o = Some po → pt ≠ po →
     heap (mem s) !! pt = Some (Live buft) →
     heap (mem s) !! po = Some (Live bufo) →
     until_NUL bufo = Some d → (String.length d < b_size o)%nat →
     ∃ s' q,
       exec (BetterString_copy_assign this other) s = Ok s' ∧
       heap (mem s) !! q = None ∧
       objs s' !! this = Some {| b_data := Some q; b_size := b_size o |} ∧
       objs s' !! other = Some o ∧
       heap (mem s') !! pt = Some Freed ∧
       heap (mem s') !! po = Some (Live bufo) ∧
       read_c_str (Some q) (mem s') = Ok (d, mem s') ∧
       out (mem s') = out (mem s) ++ ["Deep copy assignment called." +:+ nl]).
Proof.
  split.
  { intros s a. unfold_assign. by rewrite decide_True by done. }
  intros s this other t o pt po buft bufo d Hne Ht Ho Hpt Hpo Hp Hbt Hbo Hd Hn.
  set (h1 := <[pt := Freed]> (heap (mem s))).
  set (q := fresh (dom h1)).
  assert (Hq1 : h1 !! q = None) by apply fresh_unused'.
  assert (Hqpt : q ≠ pt).
  { intros Heq. rewrite Heq in Hq1. unfold h1 in Hq1.
    by rewrite lookup_insert_eq in Hq1. }
  assert (Hq : heap (mem s) !! q = None).
  { unfold h1 in Hq1. by rewrite lookup_insert_ne in Hq1. }
  assert (Hqpo : q ≠ po) by congruence.
  assert (Hcopy : until_NUL (c_chars d ++ replicate (b_size o - S (String.length d)) NUL)
                  = Some d)
    by (apply until_NUL_c_chars; by eapply until_NUL_nul_free).
  exists {| objs := <[this := {| b_data := Some q; b_size := b_size o |}]> (objs s);
            mem := {| heap := <[q := Live (c_chars d ++
                                  replicate (b_size o - S (String.length d)) NUL)]> h1;
                      out := out (mem s) ++
                             ["Deep copy assignment called." +:+ nl] |} |}, q.
  split.
  { unfold_assign.
    repeat first
      [ rewrite decide_False by done
      | rewrite lookup_insert_eq
      | rewrite (lookup_insert_ne _ this other) by done
      | rewrite (lookup_insert_ne _ pt po) by done
      | rewrite (lookup_insert_ne _ (fresh (dom (<[pt:=Freed]> (heap (mem s))))) po)
          by done
      | rewrite Ht | rewrite Ho | rewrite Hpt | rewrite Hpo
      | rewrite Hbt | rewrite Hbo | rewrite Hd
      | rewrite (c_str_nul_free d) by (by eapply until_NUL_nul_free)
      | progress cbn [objs mem heap out b_data b_size] ].
    fold (c_chars d).
    rewrite decide_True by (rewrite length_c_chars, length_replicate; lia).
    rewrite !insert_insert_eq, length_c_chars, drop_replicate. reflexivity. }
  cbn [objs mem heap out].
  split; [done|]. split; [by rewrite lookup_insert_eq|].
  split; [by rewrite lookup_insert_ne|].
  split; [unfold h1; by rewrite lookup_insert_ne, lookup_insert_eq|].
  split; [unfold h1; by rewrite !lookup_insert_ne|].
  split; [|done].
  eapply read_c_str_run; [cbn [heap]; apply lookup_insert_eq|done].
Qed.


(** X11 on two BetterStrings holding "Hello" and "Jello". *)
Lemma better_string_assignment_witness :
  ∃ s' q,
    exec (BetterString_copy_assign 1 2)
      {| objs := {[ 1%positive := {| b_data := Some 1%positive; b_size := 6 |};
                    2%positive := {| b_data := Some 2%positive; b_size := 6 |} ]};
         mem := {| heap := {[ 1%positive := Live HELLO; 2%positive := Live JELLO ]};
                   out := [] |} |} = Ok s' ∧
    objs s' !! 1%positive = Some {| b_data := Some q; b_size := 6 |} ∧
    heap (mem s') !! 1%positive = Some Freed ∧
    read_c_str (Some q) (mem s') = Ok ("Jello", mem s').
Proof.
  destruct better_string_assignment as [_ Hassign].
  destruct (Hassign
              {| objs := {[ 1%positive := {| b_data := Some 1%positive; b_size := 6 |};
                            2%positive := {| b_data := Some 2%positive; b_size := 6 |} ]};
                 mem := {| heap := {[ 1%positive := Live HELLO; 2%positive := Live JELLO ]};
                           out := [] |} |}
              1%positive 2%positive
              {| b_data := Some 1%positive; b_size := 6 |}
              {| b_data := Some 2%positive; b_size := 6 |}
              1%positive 2%positive HELLO JELLO "Jello")
    as (s' & q & Hrun & _ & Hthis & _ & Hfreed & _ & Hread & _);
    [discriminate | reflexivity | reflexivity | reflexivity | reflexivity
    | discriminate | reflexivity | reflexivity | reflexivity | cbn; lia |].
  exists s', q. split; [exact Hrun|]. split; [exact Hthis|].
  split; [exact Hfreed|exact Hread].
Defined.

Lemma read_Hello : until_NUL (c_chars "Hello") = Some "Hello".
Proof. reflexivity. Qed.

Lemma read_Jello : until_NUL (<[0%nat := "J"%char]> (c_chars "Hello")) = Some "Jello".
Proof. reflexivity. Qed.

(** X12.  Running the copy examples without an argument never returns.
    From any state, [main] with no argument writes its header, selects
    program 1 and faults in the second destructor of NaiveString, on the
    buffer the program allocated; with the argument 2 it runs to the end,
    returns 0, leaves the two buffers it allocated freed and every other
    cell as it was. *)
Theorem main_default_faults_and_2_returns (s : state) :
  exec (main None) s = Fault (UseAfterFree (fresh (dom (heap s)))) ∧
  ∃ s' p q,
    main (Some 2%Z) s = Ok (0%Z, s') ∧
    p ≠ q ∧ heap s !! p = None ∧ heap s !! q = None ∧
    heap s' !! p = Some Freed ∧ heap s' !! q = Some Freed ∧
    (∀ a, a ≠ p → a ≠ q → heap s' !! a = heap s !! a) ∧
    length (out s') = (length (out s) + 15)%nat.
Proof.
  split.
  - unfold main, Program_01_Naive_String_Run, Naive_Run_body, exec, bind.
    unfold cout at 1. unfold modify.
    rewrite NaiveString_ctor_run by exact nul_free_Hello. unfold_strings.
    repeat first
      [ rewrite lookup_insert_eq
      | rewrite insert_insert_eq
      | rewrite read_Hello | rewrite read_Jello
      | rewrite decide_True by (cbn; lia)
      | progress cbn [heap out m_data m_size fst snd NaiveString_copy] ].
    reflexivity.
  - set (p := fresh (dom (heap s))).
    set (h1 := <[p := Live (c_chars "Hello")]> (heap s)).
    set (q := fresh (dom h1)).
    assert (Hp : heap s !! p = None) by apply fresh_unused'.
    assert (Hq1 : h1 !! q = None) by apply fresh_unused'.
    assert (Hqp : q ≠ p).
    { intros Heq. rewrite Heq in Hq1. unfold h1 in Hq1.
      by rewrite lookup_insert_eq in Hq1. }
    assert (Hq : heap s !! q = None).
    { unfold h1 in Hq1. by rewrite lookup_insert_ne in Hq1. }
    assert (Hh1p : h1 !! p = Some (Live (c_chars "Hello")))
      by apply lookup_insert_eq.
    eexists _, p, q. split.
    { unfold main, Program_02_Better_String_Run, bind.
      unfold cout at 1. unfold modify.
      rewrite BetterString_ctor_run by exact nul_free_Hello. cbn [heap out]. fold p. fold h1.
      rewrite (BetterString_copy_ctor_run _ p (c_chars "Hello") "Hello" 6);
        [|apply lookup_insert_eq|reflexivity|cbn; lia].
      cbn [heap out]. fold h1. fold q.
      change (c_chars "Hello" ++ replicate (6 - S (String.length "Hello")) NUL)
        with (c_chars "Hello").
      unfold_strings.
      repeat first
        [ rewrite lookup_insert_eq
        | rewrite insert_insert_eq
        | rewrite (lookup_insert_ne _ q p) by done
        | rewrite Hh1p
        | rewrite read_Hello | rewrite read_Jello
        | rewrite decide_True by (cbn; lia)
        | progress cbn [heap out b_data b_size] ].
      reflexivity. }
    cbn [heap out]. split; [by apply not_eq_sym|].
    split; [done|]. split; [done|].
    split; [by rewrite lookup_insert_eq|].
    split; [rewrite lookup_insert_ne by done; by rewrite lookup_insert_eq|].
    split.
    + intros a Hap Haq. unfold h1. by rewrite !lookup_insert_ne.
    + rewrite !length_app. cbn. lia.
Qed.

End StringsExtra.

(** * Properties of the earlier Tracer *)

Module NameTracerExtra.
Import NameTracer.

Ltac unfold_name_ops :=
  unfold Tracer_ctor, Tracer_dtor, Tracer_copy_ctor, Tracer_copy_assign,
    Tracer_move_ctor, Tracer_move_assign, set_name, get_name, begin_obj,
    end_obj, cout, bind, ret, modify, exec, Tracer.moved_from_string;
  cbn [objs out].

(** X13.  The earlier Tracer has no self-assignment guard: copy-assigning a
    live Tracer to itself writes its COPY ASSIGNMENT line, from its own
    name, and leaves its name as it was. *)
Theorem unguarded_self_copy_assign (s : state) (a : positive) (n : string) :
  objs s !! a = Some n →
  exec (Tracer_copy_assign a a) s =
  Ok {| objs := objs s;
        out := out s ++ ["  " +:+ n +:+ ": COPY ASSIGNMENT from " +:+ n +:+ nl] |}.
Proof.
  intros Ha. unfold_name_ops. rewrite Ha. cbn [objs out]. rewrite Ha.
  cbn [objs out]. rewrite Ha. cbn [objs out]. rewrite Ha. cbn [objs out].
  by rewrite insert_id.
Qed.

(** X13 on a Tracer named "t1". *)
Lemma unguarded_self_copy_assign_witness :
  exec (Tracer_copy_assign 1 1) {| objs := {[ 1%positive := "t1" ]}; out := [] |} =
  Ok {| objs := {[ 1%positive := "t1" ]};
        out := ["  t1: COPY ASSIGNMENT from t1" +:+ nl] |}.
Proof.
  rewrite (unguarded_self_copy_assign
             {| objs := {[ 1%positive := "t1" ]}; out := [] |} 1 "t1")
    by reflexivity.
  reflexivity.
Defined.

(** X14.  Moving out of the earlier Tracer.  Move-constructing a new
    Tracer from a live one writes the MOVE CONSTRUCTOR line under the name
    of the source, gives the name to the new object and leaves the source
    with the empty name, so that the destructor of the source then writes
    ": Destructor" after the two spaces, with no name. *)
Theorem moved_from_has_no_name (s : state) (this other : positive) (n : string) :
  this ≠ other → objs s !! other = Some n →
  exec (Tracer_move_ctor this other;; Tracer_dtor other) s =
  Ok {| objs := delete other (<[this := n]> (objs s));
        out := out s ++ ["  " +:+ n +:+ ": MOVE CONSTRUCTOR (into a new object)" +:+ nl;
                         "  " +:+ "" +:+ ": Destructor" +:+ nl] |}.
Proof.
  intros Hne Ho. unfold_name_ops.
  repeat first
    [ rewrite lookup_insert_eq
    | rewrite (lookup_insert_ne _ this other) by done
    | rewrite Ho
    | progress cbn [objs out] ].
  rewrite <- app_assoc. cbn [app]. do 2 f_equal.
  apply map_eq. intros k.
  destruct (decide (k = other)) as [->|].
  - by rewrite !lookup_delete_eq.
  - rewrite !lookup_delete_ne by done.
    destruct (decide (k = this)) as [->|].
    + by rewrite lookup_insert_ne, !lookup_insert_eq.
    + by rewrite !lookup_insert_ne.
Qed.

(** X14 on exercise 2.2 of the earlier program. *)
Lemma moved_from_has_no_name_witness :
  exec (Tracer_move_ctor 2 1;; Tracer_dtor 1)
    {| objs := {[ 1%positive := "t1" ]}; out := [] |} =
  Ok {| objs := delete 1%positive (<[2%positive := "t1"]> {[ 1%positive := "t1" ]});
        out := ["  t1: MOVE CONSTRUCTOR (into a new object)" +:+ nl;
                "  : Destructor" +:+ nl] |}.
Proof.
  rewrite (moved_from_has_no_name
             {| objs := {[ 1%positive := "t1" ]}; out := [] |} 2 1 "t1");
    [reflexivity | discriminate | reflexivity].
Defined.

End NameTracerExtra.

(** * Properties of the formatter of Person *)

Module PersonFormatProofs.
Import PersonFormat.

Lemma string_app_assoc (a b c : string) : (a +:+ b) +:+ c = a +:+ (b +:+ c).
Proof.
  induction a as [|x a IH]; [done|].
  change (String x ((a +:+ b) +:+ c) = String x (a +:+ (b +:+ c))).
  by rewrite IH.
Qed.

Lemma recognised_cases (c : ascii) :
  recognised c = true ↔
  c = "n"%char ∨ c = "L"%char ∨ c = "f"%char ∨ c = "i"%char.
Proof.
  unfold recognised. rewrite !orb_true_iff, !bool_decide_eq_true. tauto.
Qed.

(** X15.  [parse] takes at most one character.  When the format text
    starts with one of n, L, f, i, that character becomes the presentation
    and the parse stops right after it; in every other case, the empty
    text included, nothing is consumed and the presentation stays.  A
    presentation among the four specifiers therefore stays among them, and
    with it [format] always takes one of its four cases. *)
Theorem parse_consumes_one_known_specifier (presentation : ascii)
    (context : string) :
  (∀ c rest, context = String c rest → recognised c = true →
             parse presentation context = (c, rest)) ∧
  ((∀ c rest, context = String c rest → recognised c = false) →
   parse presentation context = (presentation, context)) ∧
  (recognised presentation = true →
   recognised (parse presentation context).1 = true ∧
   ∀ person,
     format (parse presentation context).1 person ∈
       [ _firstName person +:+ " " +:+ _lastName person;
         _lastName person +:+ ", " +:+ _firstName person;
         _firstName person +:+ " " +:+ _lastName person +:+ " (ID: "
           +:+ pretty (_id person) +:+ ")";
         pretty (_id person) ]).
Proof.
  split; [|split].
  - intros c rest -> Hc. cbn. by rewrite Hc.
  - intros Hno. destruct context as [|c rest]; [done|]. cbn.
    by rewrite (Hno c rest eq_refl).
  - intros Hp.
    assert (Hrec : recognised (parse presentation context).1 = true).
    { destruct context as [|c rest]; [done|]. cbn.
      destruct (recognised c) eqn:Hc; done. }
    split; [done|]. intros person.
    apply recognised_cases in Hrec.
    destruct Hrec as [Hr|[Hr|[Hr|Hr]]]; rewrite Hr; cbn.
    + apply elem_of_cons; by left.
    + apply elem_of_cons; right. apply elem_of_cons; by left.
    + do 2 (apply elem_of_cons; right). apply elem_of_cons; by left.
    + do 3 (apply elem_of_cons; right). apply elem_of_cons; by left.
Qed.

(** X15 on the text "L}". *)
Lemma parse_consumes_one_known_specifier_witness :
  parse "n"%char "L}" = ("L"%char, "}").
Proof.
  destruct (parse_consumes_one_known_specifier "n"%char "L}") as [Hone _].
  apply (Hone "L"%char "}"); reflexivity.
Defined.

(** X16.  The four presentations of a Person.  The full form is the name
    form followed by the id form in " (ID: ...)"; the id form determines
    the id; and the default presentation, kept when the format text gives
    no specifier, is the name form "first last". *)
Theorem person_presentations (person : Person) :
  format "f"%char person =
    format "n"%char person +:+ " (ID: " +:+ format "i"%char person +:+ ")" ∧
  (∀ other, format "i"%char person = format "i"%char other →
            _id person = _id other) ∧
  (∀ rest, format (parse default_presentation (String "}"%char rest)).1 person =
           _firstName person +:+ " " +:+ _lastName person) ∧
  format (parse default_presentation "").1 person =
    _firstName person +:+ " " +:+ _lastName person.
Proof.
  split; [|split; [|split]].
  - change (format "f"%char person)
      with (_firstName person +:+ " " +:+ _lastName person +:+ " (ID: "
              +:+ pretty (_id person) +:+ ")").
    change (format "n"%char person)
      with (_firstName person +:+ " " +:+ _lastName person).
    change (format "i"%char person) with (pretty (_id person)).
    by rewrite !string_app_assoc.
  - intros other.
    change (pretty (_id person) = pretty (_id other) → _id person = _id other).
    apply (inj pretty).
  - done.
  - done.
Qed.

Example person_run_lines :
  let p := {| _id := 9500; _firstName := "John"; _lastName := "Doe" |} in
  format (parse default_presentation "}").1 p = "John Doe" ∧
  format (parse default_presentation "L}").1 p = "Doe, John" ∧
  format (parse default_presentation "f}").1 p = "John Doe (ID: 9500)" ∧
  format (parse default_presentation "i}").1 p = "9500" ∧
  parse default_presentation "x}" = ("n"%char, "x}").
Proof. repeat split; reflexivity. Qed.

End PersonFormatProofs.
